(** * Matching and settlement engine of the trading simulator (src/main.cpp)

    A shallow embedding of the classes [OrderBookEntry], [CSVReader],
    [Wallet], [OrderBook] and [MerkelMain::ExtendedWallet], and of the steps
    of [MerkelMain] that change its state, followed by the properties of the
    order book, of the wallet and of the application.

    Modelling conventions.
    - A C++ [double] is an exact rational [Q]: the comparisons [<], [>=],
      [==] and the operations [+], [-], [*] are the rational ones.  Rounding,
      infinities and NaN are outside the model.
    - A [std::string] is a [string]; [operator<] on strings is the
      lexicographic order on bytes, [String.ltb].
    - A [std::vector] is a [list]; [std::map<std::string,double>] is a
      [gmap string Q].
    - [std::sort] is an interface ([StdSort]) carrying the guarantees of the
      C++ standard: the result is a permutation of the input, sorted for the
      comparator, whenever the comparator is a strict weak ordering.  The
      relative order of equivalent elements is not part of the contract.
    - A call either returns, throws, or has no defined behaviour (an
      unchecked [operator[]] outside the vector): see [result]. *)

From Stdlib Require Import Ascii String QArith Lqa.
From stdpp Require Import gmap strings list sorting.

Local Open Scope Q_scope.

(** ** Outcome of a call *)

Inductive result (A : Type) : Type :=
  | Returns (a : A)
  | Throws
  | Undefined.
Arguments Returns {A} a.
Arguments Throws {A}.
Arguments Undefined {A}.

(* Sequencing, written [x ← r; k]: a throw or an undefined step ends the
   computation. *)
Global Instance result_bind : MBind result := λ A B k r,
  match r with
  | Returns a => k a
  | Throws => Throws
  | Undefined => Undefined
  end.

(* [v[i]] on a [std::vector]: unchecked, no defined value out of range. *)
Definition index {A} (v : list A) (i : nat) : result A :=
  match v !! i with
  | Some x => Returns x
  | None => Undefined
  end.

(** ** Comparisons on [double] *)

(* a < b *)
Definition Qltb (a b : Q) : bool :=
  match a ?= b with Lt => true | _ => false end.

(* a >= b *)
Definition Qgeb (a b : Q) : bool := Qle_bool b a.

(* a > b *)
Definition Qgtb (a b : Q) : bool := Qltb b a.

(** ** 1. Data structures and enums *)

(* enum class OrderBookType: a scoped enumeration, [OrderBookType.bid] ... *)
Module OrderBookType.
Inductive t := bid | ask | unknown | asksale | bidsale.
End OrderBookType.

Global Instance OrderBookType_eq_dec : EqDecision OrderBookType.t.
Proof. solve_decision. Defined.

Record OrderBookEntry := mkOrderBookEntry {
  price : Q;
  amount : Q;
  timestamp : string;
  product : string;
  orderType : OrderBookType.t;
  username : string
}.

(* The constructor's default argument [_username = "dataset"]. *)
Definition dataset : string := "dataset".
Definition simuser : string := "simuser".

Definition set_amount (e : OrderBookEntry) (a : Q) : OrderBookEntry :=
  mkOrderBookEntry (price e) a (timestamp e) (product e) (orderType e) (username e).

Definition compareByTimestamp (e1 e2 : OrderBookEntry) : bool :=
  String.ltb (timestamp e1) (timestamp e2).

Definition compareByPriceAsc (e1 e2 : OrderBookEntry) : bool :=
  Qltb (price e1) (price e2).

Definition compareByPriceDesc (e1 e2 : OrderBookEntry) : bool :=
  Qgtb (price e1) (price e2).

(** ** 2. CSV / string parsing utilities *)

Module CSVReader.

(* The value of [std::string::npos] once stored in a [signed int]. *)
Definition npos : Z := (-1)%Z.

(* Index of the first character at a position >= [pos] that satisfies [p],
   [npos] when there is none; [idx] is the index of the head of [s]. *)
Fixpoint find_from (p : ascii → bool) (s : string) (idx pos : Z) : Z :=
  match s with
  | EmptyString => npos
  | String c s' =>
      if ((pos <=? idx)%Z && p c)%bool then idx
      else find_from p s' (idx + 1)%Z pos
  end.

(* A negative [signed int] position converts to a [size_t] beyond every
   string, where both searches answer [npos]. *)
Definition find_first_not_of (s : string) (sep : ascii) (pos : Z) : Z :=
  if (pos <? 0)%Z then npos
  else find_from (λ c, negb (Ascii.eqb c sep)) s 0%Z pos.

Definition find_first_of (s : string) (sep : ascii) (pos : Z) : Z :=
  if (pos <? 0)%Z then npos
  else find_from (λ c, Ascii.eqb c sep) s 0%Z pos.

Definition substr (s : string) (pos len : Z) : string :=
  String.substring (Z.to_nat pos) (Z.to_nat len) s.

Definition strlen (s : string) : Z := Z.of_nat (String.length s).

(* The body of the do-while loop; [fuel] bounds the number of iterations
   (each one moves [start] strictly to the right, see
   [tokenise_loop_fuel]). *)
Fixpoint tokenise_loop (fuel : nat) (csvLine : string) (separator : ascii)
    (start : Z) : list string :=
  match fuel with
  | O => []
  | S fuel' =>
      let end_ := find_first_of csvLine separator start in
      if ((start =? strlen csvLine)%Z || (start =? end_)%Z)%bool then []
      else
        let token :=
          if (0 <=? end_)%Z then substr csvLine start (end_ - start)%Z
          else substr csvLine start (strlen csvLine - start)%Z in
        token ::
          (if (0 <? end_)%Z
           then tokenise_loop fuel' csvLine separator (end_ + 1)%Z
           else [])
  end.

Definition tokenise (csvLine : string) (separator : ascii) : list string :=
  let start := find_first_not_of csvLine separator 0%Z in
  tokenise_loop (S (String.length csvLine)) csvLine separator start.

End CSVReader.

(** ** 3. Wallet *)

Module Wallet.

Abbreviation t := (gmap string Q).

(* [currencies[type]] read after a successful [count] test, or the
   value-initialised 0.0 that [operator[]] inserts for an absent key. *)
Definition balance (currencies : t) (type : string) : Q :=
  default 0 (currencies !! type).

Definition insertCurrency (currencies : t) (type : string) (amount : Q)
    : result t :=
  if Qltb amount 0 then Throws
  else
    let balance :=
      match currencies !! type with None => 0 | Some b => b end in
    Returns (<[type := balance + amount]> currencies).

Definition containsCurrency (currencies : t) (type : string) (amount : Q)
    : bool :=
  match currencies !! type with
  | None => false
  | Some b => Qgeb b amount
  end.

Definition removeCurrency (currencies : t) (type : string) (amount : Q)
    : t * bool :=
  if Qltb amount 0 then (currencies, false)
  else match currencies !! type with
  | None => (currencies, false)
  | Some b =>
      if containsCurrency currencies type amount
      then (<[type := b - amount]> currencies, true)
      else (currencies, false)
  end.

End Wallet.

(** ** 4. OrderBook *)

(** The contract of [std::sort(first, last, comp)]. *)

Definition equiv_for {A} (comp : A → A → bool) (x y : A) : Prop :=
  comp x y = false ∧ comp y x = false.

Record StrictWeakOrder {A} (comp : A → A → bool) : Prop := {
  swo_irrefl : ∀ x, comp x x = false;
  swo_trans : ∀ x y z, comp x y = true → comp y z = true → comp x z = true;
  swo_equiv_trans : ∀ x y z,
    equiv_for comp x y → equiv_for comp y z → equiv_for comp x z
}.

(* [x] may stand before [y]: [y] does not compare less than [x]. *)
Definition not_after {A} (comp : A → A → bool) : relation A :=
  λ x y, comp y x = false.

Global Instance not_after_dec {A} (comp : A → A → bool) x y :
  Decision (not_after comp x y).
Proof. unfold not_after. apply _. Defined.

(* [std::is_sorted]: no element compares less than an earlier one. *)
Definition is_sorted {A} (comp : A → A → bool) (l : list A) : Prop :=
  StronglySorted (not_after comp) l.

Class StdSort := {
  std_sort : ∀ {A}, (A → A → bool) → list A → list A;
  std_sort_perm : ∀ {A} (comp : A → A → bool) l,
    StrictWeakOrder comp → std_sort comp l ≡ₚ l;
  std_sort_sorted : ∀ {A} (comp : A → A → bool) l,
    StrictWeakOrder comp → is_sorted comp (std_sort comp l)
}.

Module OrderBook.

Abbreviation t := (list OrderBookEntry).

Definition entry (p a : Q) (ts prod : string) (ty : OrderBookType.t)
    : OrderBookEntry :=
  mkOrderBookEntry p a ts prod ty dataset.

(* OrderBook::OrderBook(): the mock data. *)
Definition OrderBook : t :=
  [ entry 10000 (1 # 2) "2020/03/17 17:01:24" "BTC/USDT" OrderBookType.bid;
    entry 10500 (1 # 5) "2020/03/17 17:01:24" "BTC/USDT" OrderBookType.ask;
    entry 10100 1 "2020/03/17 17:01:24" "BTC/USDT" OrderBookType.bid;
    entry 200 50 "2020/03/17 17:01:30" "ETH/USDT" OrderBookType.ask;
    entry 190 10 "2020/03/17 17:01:30" "ETH/USDT" OrderBookType.bid ].

(* [prodMap[k] = true] on a [std::map<std::string,bool>], kept as the list
   of its entries in ascending key order, the order in which the map is
   iterated. *)
Fixpoint map_assign (k : string) (v : bool) (m : list (string * bool))
    : list (string * bool) :=
  match m with
  | [] => [(k, v)]
  | (k', v') :: m' =>
      if String.ltb k k' then (k, v) :: m
      else if String.eqb k k' then (k, v) :: m'
      else (k', v') :: map_assign k v m'
  end.

Definition getKnownProducts (orders : t) : list string :=
  let prodMap := fold_left (λ m e, map_assign (product e) true m) orders [] in
  (λ kv, kv.1) <$> prodMap.

Definition getOrders (type : OrderBookType.t) (prod ts : string)
    (orders : t) : list OrderBookEntry :=
  filter (λ e, orderType e = type ∧ product e = prod ∧ timestamp e = ts)
    orders.



Definition getEarliestTime (orders : t) : result string :=
  e ← index orders 0; Returns (timestamp e).

(* The for loop of getNextTime: the timestamp of the first entry, in
   collection order, that is greater than [ts]; "" when the loop ends
   without a break. *)
Fixpoint first_after (ts : string) (orders : t) : string :=
  match orders with
  | [] => ""
  | e :: rest =>
      if String.ltb ts (timestamp e) then timestamp e
      else first_after ts rest
  end.

Definition getNextTime (orders : t) (ts : string) : result string :=
  let next_timestamp := first_after ts orders in
  if String.eqb next_timestamp "" then
    e ← index orders 0; Returns (timestamp e)
  else Returns next_timestamp.

Definition insertOrder `{StdSort} (orders : t) (order : OrderBookEntry) : t :=
  std_sort compareByTimestamp (orders ++ [order]).

(** *** Matching *)

Definition set_owner (e : OrderBookEntry) (u : string)
    (ty : OrderBookType.t) : OrderBookEntry :=
  mkOrderBookEntry (price e) (amount e) (timestamp e) (product e) ty u.

(* The sale as it stands before the amount branches (lines 212-221). *)
Definition new_sale (ask bid : OrderBookEntry) (ts prod : string)
    : OrderBookEntry :=
  let sale := mkOrderBookEntry (price ask) 0 ts prod OrderBookType.asksale dataset in
  let sale :=
    if String.eqb (username bid) simuser
    then set_owner sale simuser OrderBookType.bidsale else sale in
  if String.eqb (username ask) simuser
  then set_owner sale simuser OrderBookType.asksale else sale.

(* One iteration of the inner loop: the sale pushed (if any), the ask
   and the bid as the iteration leaves them, and whether it ends in
   [break]. *)
Record iteration := mkIteration {
  pushed : option OrderBookEntry;
  ask_after : OrderBookEntry;
  bid_after : OrderBookEntry;
  breaks : bool
}.

Definition matchPair (ts prod : string) (ask bid : OrderBookEntry)
    : iteration :=
  if Qgeb (price bid) (price ask) then
    let sale := new_sale ask bid ts prod in
    if Qeq_bool (amount bid) (amount ask) then
      mkIteration (Some (set_amount sale (amount ask)))
        ask (set_amount bid 0) true
    else if Qgtb (amount bid) (amount ask) then
      mkIteration (Some (set_amount sale (amount ask)))
        ask (set_amount bid (amount bid - amount ask)) true
    else if (Qltb (amount bid) (amount ask) && Qgtb (amount bid) 0)%bool then
      mkIteration (Some (set_amount sale (amount bid)))
        (set_amount ask (amount ask - amount bid)) (set_amount bid 0) false
    else mkIteration None ask bid false
  else mkIteration None ask bid false.

(* for (OrderBookEntry& bid : bids): the sales pushed, the ask and the
   bids as the loop leaves them. *)
Fixpoint scanBids (ts prod : string) (ask : OrderBookEntry)
    (bids : list OrderBookEntry)
    : list OrderBookEntry * OrderBookEntry * list OrderBookEntry :=
  match bids with
  | [] => ([], ask, [])
  | bid :: rest =>
      let it := matchPair ts prod ask bid in
      if breaks it
      then (option_list (pushed it), ask_after it, bid_after it :: rest)
      else
        let '(sales, ask', rest') := scanBids ts prod (ask_after it) rest in
        (option_list (pushed it) ++ sales, ask', bid_after it :: rest')
  end.

(* for (OrderBookEntry& ask : asks): the sales pushed, the asks and the
   bids as the loops leave them. *)
Fixpoint scanAsks (ts prod : string) (asks bids : list OrderBookEntry)
    : list OrderBookEntry * list OrderBookEntry * list OrderBookEntry :=
  match asks with
  | [] => ([], [], bids)
  | ask :: rest =>
      let '(sales1, ask', bids') := scanBids ts prod ask bids in
      let '(sales2, rest', bids'') := scanAsks ts prod rest bids' in
      (sales1 ++ sales2, ask' :: rest', bids'')
  end.

Definition matchAsksToBids `{StdSort} (orders : t) (prod ts : string)
    : list OrderBookEntry :=
  let asks := getOrders OrderBookType.ask prod ts orders in
  let bids := getOrders OrderBookType.bid prod ts orders in
  let asks := std_sort compareByPriceAsc asks in
  let bids := std_sort compareByPriceDesc bids in
  (scanAsks ts prod asks bids).1.1.

End OrderBook.

(** ** 5. MerkelMain::ExtendedWallet *)

Module ExtendedWallet.
Import Wallet.

Definition slash : ascii := "/"%char.

(* currencies[c] -= x  and  currencies[c] += x *)
Definition debit (currencies : Wallet.t) (c : string) (x : Q) : Wallet.t :=
  <[c := balance currencies c - x]> currencies.
Definition credit (currencies : Wallet.t) (c : string) (x : Q) : Wallet.t :=
  <[c := balance currencies c + x]> currencies.

Definition canFulfillOrder (currencies : Wallet.t) (order : OrderBookEntry)
    : result bool :=
  let currs := CSVReader.tokenise (product order) slash in
  if decide (orderType order = OrderBookType.ask) then
    c0 ← index currs 0;
    Returns (containsCurrency currencies c0 (amount order))
  else if decide (orderType order = OrderBookType.bid) then
    c1 ← index currs 1;
    Returns (containsCurrency currencies c1 (amount order * price order))
  else Returns false.

Definition processSale (currencies : Wallet.t) (sale : OrderBookEntry)
    : result Wallet.t :=
  let currs := CSVReader.tokenise (product sale) slash in
  currencies ←
    (if decide (orderType sale = OrderBookType.asksale) then
       let outgoing := amount sale in
       let incoming := amount sale * price sale in
       c0 ← index currs 0;
       let currencies := debit currencies c0 outgoing in
       c1 ← index currs 1;
       Returns (credit currencies c1 incoming)
     else Returns currencies);
  if decide (orderType sale = OrderBookType.bidsale) then
    let incoming := amount sale in
    let outgoing := amount sale * price sale in
    c0 ← index currs 0;
    let currencies := credit currencies c0 incoming in
    c1 ← index currs 1;
    Returns (debit currencies c1 outgoing)
  else Returns currencies.

End ExtendedWallet.

(** ** 6. MerkelMain (the steps of the app loop)

    The state of the application is its three members.  Console input is
    the line handed to a step; of the console output only the verdict
    printed by enterAsk and enterBid is kept.  [std::stod] is a parameter
    [stod]: [None] stands for the exception it throws on a text that is not a
    number. *)

Module MerkelMain.

Record t := mk {
  orderBook : OrderBook.t;
  wallet : Wallet.t;
  currentTime : string
}.

Definition comma : ascii := ","%char.

Definition bad_input : string := "Bad input!".
Definition wallet_looks_good : string := "Wallet looks good.".
Definition insufficient_funds : string := "Wallet has insufficient funds.".

(* The body shared by enterAsk and enterBid, which differ in the type of
   the order only.  The handler catches what stod throws; nothing else
   throws inside the try block. *)
Definition enterOrder `{StdSort} (stod : string → option Q)
    (type : OrderBookType.t) (app : t) (input : string) : result (t * string) :=
  let tokens := CSVReader.tokenise input comma in
  if decide (length tokens ≠ 3%nat) then Returns (app, bad_input)
  else
    t0 ← index tokens 0;
    t1 ← index tokens 1;
    t2 ← index tokens 2;
    match stod t1, stod t2 with
    | Some p, Some a =>
        let obe := mkOrderBookEntry p a (currentTime app) t0 type simuser in
        ok ← ExtendedWallet.canFulfillOrder (wallet app) obe;
        if ok : bool then
          Returns (mk (OrderBook.insertOrder (orderBook app) obe)
                     (wallet app) (currentTime app),
                   wallet_looks_good)
        else Returns (app, insufficient_funds)
    | _, _ => Returns (app, bad_input)
    end.

Definition enterAsk `{StdSort} (stod : string → option Q) (app : t)
    (input : string) : result (t * string) :=
  enterOrder stod OrderBookType.ask app input.

Definition enterBid `{StdSort} (stod : string → option Q) (app : t)
    (input : string) : result (t * string) :=
  enterOrder stod OrderBookType.bid app input.

(* for (OrderBookEntry& sale : sales): the sales of the simulated user are
   settled in the wallet. *)
Fixpoint settleSales (currencies : Wallet.t) (sales : list OrderBookEntry)
    : result Wallet.t :=
  match sales with
  | [] => Returns currencies
  | sale :: rest =>
      currencies ←
        (if String.eqb (username sale) simuser
         then ExtendedWallet.processSale currencies sale
         else Returns currencies);
      settleSales currencies rest
  end.

(* for (std::string& p : orderBook.getKnownProducts()) *)
Fixpoint matchProducts `{StdSort} (orders : OrderBook.t) (ts : string)
    (currencies : Wallet.t) (products : list string) : result Wallet.t :=
  match products with
  | [] => Returns currencies
  | p :: rest =>
      let sales := OrderBook.matchAsksToBids orders p ts in
      currencies ← settleSales currencies sales;
      matchProducts orders ts currencies rest
  end.

Definition gotoNextTimeframe `{StdSort} (app : t) : result t :=
  currencies ←
    matchProducts (orderBook app) (currentTime app) (wallet app)
      (OrderBook.getKnownProducts (orderBook app));
  next ← OrderBook.getNextTime (orderBook app) (currentTime app);
  Returns (mk (orderBook app) currencies next).

(* init, up to the loop: the time is set to the earliest one and the
   wallet receives its two deposits. *)
Definition init : result t :=
  currentTime ← OrderBook.getEarliestTime OrderBook.OrderBook;
  currencies ← Wallet.insertCurrency ∅ "BTC" 10;
  currencies ← Wallet.insertCurrency currencies "USDT" 100000;
  Returns (mk OrderBook.OrderBook currencies currentTime).

End MerkelMain.

(** ** Sequences of wallet operations *)







(** ** Predicates on the book and on the matching loops *)

(* The books the program can hold: the seeded one, then any insertions. *)
Inductive reachable `{StdSort} : OrderBook.t → Prop :=
  | reachable_seed : reachable OrderBook.OrderBook
  | reachable_insert orders order :
      reachable orders → reachable (OrderBook.insertOrder orders order).


Definition nonneg_amounts (l : list OrderBookEntry) : Prop :=
  Forall (λ e, 0 <= amount e) l.

(* s1 <= s2 on timestamps *)
Definition ts_le (s1 s2 : string) : Prop := String.ltb s2 s1 = false.

(* [r] is the smallest stored timestamp strictly greater than [ts]. *)
Definition least_after (orders : OrderBook.t) (ts r : string) : Prop :=
  (∃ e, e ∈ orders ∧ timestamp e = r) ∧
  String.ltb ts r = true ∧
  ∀ e, e ∈ orders → String.ltb ts (timestamp e) = true → ts_le r (timestamp e).

(* Matching changes amounts only: an entry and what is left of it. *)
Definition same_price (e e' : OrderBookEntry) : Prop := price e = price e'.



(** ** Fields of a line *)

(* The fields written one after the other, with [sep] between them. *)
Fixpoint join (sep : ascii) (fields : list string) : string :=
  match fields with
  | [] => ""
  | t :: rest =>
      match rest with
      | [] => t
      | _ => t +:+ String sep (join sep rest)
      end
  end.

(* [sep] does not occur in [s]. *)
Fixpoint sep_free (sep : ascii) (s : string) : Prop :=
  match s with
  | EmptyString => True
  | String c s' => c ≠ sep ∧ sep_free sep s'
  end.

(* A field that tokenise gives back: not empty, without separator. *)
Definition is_field (sep : ascii) (t : string) : Prop :=
  t ≠ ""%string ∧ sep_free sep t.

(* What may follow the last field without adding a token: nothing, one
   closing separator, or two separators in a row and any text. *)
Definition ends_fields (sep : ascii) (tail : string) : Prop :=
  tail = ""%string ∨ tail = String sep "" ∨ ∃ r, tail = String sep (String sep r).

(* The keys of a map kept as the list of its entries. *)
Definition keys (m : list (string * bool)) : list string := (λ kv, kv.1) <$> m.

(* How a trade between [ask] and [bid] is labelled: with the keys of the
   call and the ask's price; for the simulated user as seller when the ask
   is the user's, else as buyer when the bid is, else for the data set. *)
Definition labelled (ts prod : string) (ask bid sale : OrderBookEntry) : Prop :=
  timestamp sale = ts ∧ product sale = prod ∧ price sale = price ask ∧
  if decide (username ask = simuser)
  then username sale = simuser ∧ orderType sale = OrderBookType.asksale
  else if decide (username bid = simuser)
  then username sale = simuser ∧ orderType sale = OrderBookType.bidsale
  else username sale = dataset ∧ orderType sale = OrderBookType.asksale.

(* An order and what matching has left of it: all but the amount. *)
Definition same_order (e e' : OrderBookEntry) : Prop :=
  price e' = price e ∧ timestamp e' = timestamp e ∧ product e' = product e ∧
  orderType e' = orderType e ∧ username e' = username e.

(** ** States of the application *)

(* The states the loop of init can reach by the steps that change the
   state: entering an ask or a bid, and going to the next time step. *)
Inductive app_reachable `{StdSort} (stod : string → option Q)
    : MerkelMain.t → Prop :=
  | app_init app : MerkelMain.init = Returns app → app_reachable stod app
  | app_enterAsk app input app' msg :
      app_reachable stod app →
      MerkelMain.enterAsk stod app input = Returns (app', msg) →
      app_reachable stod app'
  | app_enterBid app input app' msg :
      app_reachable stod app →
      MerkelMain.enterBid stod app input = Returns (app', msg) →
      app_reachable stod app'
  | app_gotoNextTimeframe app app' :
      app_reachable stod app →
      MerkelMain.gotoNextTimeframe app = Returns app' →
      app_reachable stod app'.

(* The book is one the order book can hold, the current time is the
   timestamp of a stored entry, the book holds asks and bids only, and the
   product of every bid splits into two currencies at least. *)
Definition app_invariant `{StdSort} (app : MerkelMain.t) : Prop :=
  reachable (MerkelMain.orderBook app) ∧
  (∃ e, e ∈ MerkelMain.orderBook app ∧ timestamp e = MerkelMain.currentTime app) ∧
  (∀ e, e ∈ MerkelMain.orderBook app →
     orderType e = OrderBookType.ask ∨ orderType e = OrderBookType.bid) ∧
  (∀ e, e ∈ MerkelMain.orderBook app → orderType e = OrderBookType.bid →
     (2 ≤ length (CSVReader.tokenise (product e) ExtendedWallet.slash))%nat).

(* The order [obe] of the simulated user, of the given type and at the
   current time, is what distinguishes [app'] from [app]. *)
Definition places (type : OrderBookType.t) `{StdSort} (app app' : MerkelMain.t)
    (obe : OrderBookEntry) : Prop :=
  MerkelMain.orderBook app' = OrderBook.insertOrder (MerkelMain.orderBook app) obe ∧
  orderType obe = type ∧ username obe = simuser ∧
  timestamp obe = MerkelMain.currentTime app.

(** ** Concrete inputs used below *)

(* MerkelMain::init: the wallet after the two initial deposits. *)
Definition init_wallet : Wallet.t :=
  <["USDT"%string := 100000]> (<["BTC"%string := 10]> ∅).



(* An ask and a bid of the simulated user at the same price, both for
   nothing ("BTC/USDT,100,0"): canFulfillOrder accepts them. *)
Definition empty_ask : OrderBookEntry :=
  mkOrderBookEntry 100 0 "2020/03/17 17:01:30" "BTC/USDT" OrderBookType.ask simuser.
Definition empty_bid : OrderBookEntry :=
  mkOrderBookEntry 100 0 "2020/03/17 17:01:30" "BTC/USDT" OrderBookType.bid simuser.

(* An ask that exhausts a bid, followed by an ask for nothing. *)
Definition ask_10 : OrderBookEntry :=
  OrderBook.entry 100 10 "2020/03/17 17:01:30" "BTC/USDT" OrderBookType.ask.
Definition bid_10_high : OrderBookEntry :=
  OrderBook.entry 200 10 "2020/03/17 17:01:30" "BTC/USDT" OrderBookType.bid.

(* The second example of the specification: ask 50 @ 200, bid 10 @ 200. *)
Definition ask_50 : OrderBookEntry :=
  OrderBook.entry 200 50 "2020/03/17 17:01:30" "ETH/USDT" OrderBookType.ask.
Definition bid_10 : OrderBookEntry :=
  OrderBook.entry 200 10 "2020/03/17 17:01:30" "ETH/USDT" OrderBookType.bid.

(* A bid of the simulated user that crosses the seeded ETH/USDT ask. *)
Definition user_bid : OrderBookEntry :=
  mkOrderBookEntry 200 10 "2020/03/17 17:01:30" "ETH/USDT" OrderBookType.bid simuser.


(* An ask of the simulated user for nothing ("BTC/USDT,9000,0"), entered
   at the first time step; canFulfillOrder accepts it. *)
Definition zero_ask : OrderBookEntry :=
  mkOrderBookEntry 9000 0 "2020/03/17 17:01:24" "BTC/USDT" OrderBookType.ask simuser.

(* Orders on a product written without separator, and without product. *)
Definition bid_no_separator : OrderBookEntry :=
  mkOrderBookEntry 100 1 "2020/03/17 17:01:24" "BTCUSDT" OrderBookType.bid simuser.
Definition sale_no_separator : OrderBookEntry :=
  mkOrderBookEntry 100 1 "2020/03/17 17:01:24" "BTCUSDT" OrderBookType.asksale simuser.
Definition ask_no_product : OrderBookEntry :=
  mkOrderBookEntry 100 1 "2020/03/17 17:01:24" "" OrderBookType.ask simuser.

(* A stand-in for std::stod that reads three numerals, to run the steps of
   the application on example lines. *)
Definition example_stod (s : string) : option Q :=
  if String.eqb s "100" then Some 100
  else if String.eqb s "1" then Some 1
  else if String.eqb s "0.5" then Some (1 # 2)
  else None.

(* The state set up by init, and the ask entered by "BTC/USDT,100,1". *)
Definition init_app : MerkelMain.t :=
  MerkelMain.mk OrderBook.OrderBook init_wallet "2020/03/17 17:01:24".
Definition entered_ask : OrderBookEntry :=
  mkOrderBookEntry 100 1 "2020/03/17 17:01:24" "BTC/USDT" OrderBookType.ask simuser.

(** * Properties *)

(** ** Comparisons *)

Lemma Qltb_true a b : Qltb a b = true ↔ a < b.
Proof.
  unfold Qltb. rewrite Qlt_alt. destruct (a ?= b); split; congruence.
Qed.

Lemma Qltb_false a b : Qltb a b = false ↔ b <= a.
Proof.
  rewrite <- not_true_iff_false, Qltb_true. split; [apply Qnot_lt_le | apply Qle_not_lt].
Qed.

Lemma Qgeb_true a b : Qgeb a b = true ↔ b <= a.
Proof. unfold Qgeb. apply Qle_bool_iff. Qed.

Lemma Qgeb_false a b : Qgeb a b = false ↔ a < b.
Proof.
  rewrite <- not_true_iff_false, Qgeb_true. split; [apply Qnot_le_lt | apply Qlt_not_le].
Qed.

Lemma Qeq_bool_false a b : Qeq_bool a b = false ↔ ¬ a == b.
Proof. rewrite <- not_true_iff_false, Qeq_bool_iff. tauto. Qed.

Ltac qbool :=
  repeat match goal with
  | H : Qltb _ _ = true |- _ => apply Qltb_true in H
  | H : Qltb _ _ = false |- _ => apply Qltb_false in H
  | H : Qgtb _ _ = true |- _ => apply Qltb_true in H
  | H : Qgtb _ _ = false |- _ => apply Qltb_false in H
  | H : Qgeb _ _ = true |- _ => apply Qgeb_true in H
  | H : Qgeb _ _ = false |- _ => apply Qgeb_false in H
  | H : Qeq_bool _ _ = true |- _ => apply Qeq_bool_iff in H
  | H : Qeq_bool _ _ = false |- _ => apply Qeq_bool_false in H
  | |- Qltb _ _ = true => apply Qltb_true
  | |- Qltb _ _ = false => apply Qltb_false
  | |- Qgtb _ _ = true => apply Qltb_true
  | |- Qgtb _ _ = false => apply Qltb_false
  | |- Qgeb _ _ = true => apply Qgeb_true
  | |- Qgeb _ _ = false => apply Qgeb_false
  | |- Qeq_bool _ _ = true => apply Qeq_bool_iff
  | |- Qeq_bool _ _ = false => apply Qeq_bool_false
  end.

(** ** The order on timestamps *)

Lemma ascii_compare_refl c : Ascii.compare c c = Eq.
Proof. unfold Ascii.compare. apply N.compare_refl. Qed.

Lemma ascii_compare_lt_trans a b c :
  Ascii.compare a b = Lt → Ascii.compare b c = Lt → Ascii.compare a c = Lt.
Proof. unfold Ascii.compare. rewrite !N.compare_lt_iff. lia. Qed.

Lemma string_compare_refl s : String.compare s s = Eq.
Proof. induction s as [|c s IH]; simpl; [done|]. by rewrite ascii_compare_refl. Qed.

Lemma string_compare_lt_trans s1 : ∀ s2 s3,
  String.compare s1 s2 = Lt → String.compare s2 s3 = Lt →
  String.compare s1 s3 = Lt.
Proof.
  induction s1 as [|a s1 IH]; intros [|b s2] [|c s3]; simpl; try done.
  destruct (Ascii.compare a b) eqn:Hab; try done;
    destruct (Ascii.compare b c) eqn:Hbc; try done; intros H12 H23.
  - apply Ascii.compare_eq_iff in Hab, Hbc. subst.
    rewrite ascii_compare_refl. eauto.
  - apply Ascii.compare_eq_iff in Hab. subst. by rewrite Hbc.
  - apply Ascii.compare_eq_iff in Hbc. subst. by rewrite Hab.
  - by rewrite (ascii_compare_lt_trans a b c).
Qed.

Lemma ltb_irrefl s : String.ltb s s = false.
Proof. unfold String.ltb. by rewrite string_compare_refl. Qed.

Lemma ltb_trans s1 s2 s3 :
  String.ltb s1 s2 = true → String.ltb s2 s3 = true → String.ltb s1 s3 = true.
Proof.
  unfold String.ltb. intros H12 H23.
  rewrite (string_compare_lt_trans s1 s2 s3); [done| |].
  - by destruct (String.compare s1 s2).
  - by destruct (String.compare s2 s3).
Qed.

Lemma ltb_asym s1 s2 : String.ltb s1 s2 = true → String.ltb s2 s1 = false.
Proof.
  unfold String.ltb. rewrite (String.compare_antisym s2 s1).
  by destruct (String.compare s1 s2).
Qed.

Lemma ltb_equiv s1 s2 :
  String.ltb s1 s2 = false → String.ltb s2 s1 = false → s1 = s2.
Proof.
  unfold String.ltb. rewrite (String.compare_antisym s2 s1).
  destruct (String.compare s1 s2) eqn:Hc; simpl; try done.
  intros _ _. by apply String.compare_eq_iff.
Qed.

Lemma ltb_empty_r s : String.ltb s "" = false.
Proof. by destruct s. Qed.

Lemma ts_le_refl s : ts_le s s.
Proof. apply ltb_irrefl. Qed.

(** ** The three comparators are strict weak orderings *)

Lemma compareByTimestamp_swo : StrictWeakOrder compareByTimestamp.
Proof.
  split; unfold equiv_for, compareByTimestamp.
  - intros x. apply ltb_irrefl.
  - intros x y z. apply ltb_trans.
  - intros x y z [H1 H2] [H3 H4].
    rewrite (ltb_equiv _ _ H1 H2). by split.
Qed.

Lemma compareByPriceAsc_swo : StrictWeakOrder compareByPriceAsc.
Proof.
  split; unfold equiv_for, compareByPriceAsc.
  - intros x. qbool. lra.
  - intros x y z ??. qbool. lra.
  - intros x y z [??] [??]. split; qbool; lra.
Qed.

Lemma compareByPriceDesc_swo : StrictWeakOrder compareByPriceDesc.
Proof.
  split; unfold equiv_for, compareByPriceDesc.
  - intros x. qbool. lra.
  - intros x y z ??. qbool. lra.
  - intros x y z [??] [??]. split; qbool; lra.
Qed.

(** ** Strict weak orderings and a sort that honours the contract *)

Section strict_weak_order.
Context {A : Type} (comp : A → A → bool) (Hswo : StrictWeakOrder comp).

Lemma swo_asym x y : comp x y = true → comp y x = false.
Proof.
  intros Hxy. destruct (comp y x) eqn:Hyx; [|done].
  pose proof (swo_trans comp Hswo x y x Hxy Hyx) as Hxx.
  by rewrite (swo_irrefl comp Hswo) in Hxx.
Qed.

(* not (x < y) and not (y < z) give not (x < z) *)
Lemma swo_neg_trans x y z :
  comp x y = false → comp y z = false → comp x z = false.
Proof.
  intros Hxy Hyz. destruct (comp x z) eqn:Hxz; [|done].
  destruct (comp y x) eqn:Hyx.
  { by rewrite (swo_trans comp Hswo y x z Hyx Hxz) in Hyz. }
  destruct (comp z y) eqn:Hzy.
  { by rewrite (swo_trans comp Hswo x z y Hxz Hzy) in Hxy. }
  destruct (swo_equiv_trans comp Hswo x y z) as [Hc _]; [by split..|].
  congruence.
Qed.

Local Instance not_after_total : Total (not_after comp).
Proof.
  intros x y. unfold not_after. destruct (comp y x) eqn:Hyx; [|by left].
  right. by apply swo_asym.
Qed.

Local Instance not_after_trans : Transitive (not_after comp).
Proof. intros x y z Hxy Hyz. by apply (swo_neg_trans z y x). Qed.

Lemma merge_sort_is_sorted l : is_sorted comp (merge_sort (not_after comp) l).
Proof. apply (StronglySorted_merge_sort _). Qed.

(* What the contract fixes: a sorted permutation is the result of every
   conforming sort as soon as equivalent elements of it are equal. *)
Lemma sorted_perm_unique (l1 l2 : list A) :
  (∀ x y, x ∈ l2 → y ∈ l2 → equiv_for comp x y → x = y) →
  is_sorted comp l1 → is_sorted comp l2 → l1 ≡ₚ l2 → l1 = l2.
Proof.
  intros Huniq Hs1 Hs2 Hp.
  apply (StronglySorted_unique_strong (not_after comp)); try done.
  intros x y Hx Hy Hxy Hyx. apply Huniq; [by rewrite <- Hp|done|by split].
Qed.
End strict_weak_order.

(* A sort that honours the contract: stdpp's merge sort on [not_after]. *)
Definition merge_sort_by {A} (comp : A → A → bool) (l : list A) : list A :=
  merge_sort (not_after comp) l.

Definition merge_std_sort : StdSort.
Proof.
  refine {| std_sort := λ A comp l, merge_sort_by comp l |}.
  - intros A comp l _. apply merge_sort_Permutation.
  - intros A comp l Hswo. by apply merge_sort_is_sorted.
Defined.

(** ** Wallet: balances under deposit, withdraw and settle *)

Section wallet.
Import Wallet ExtendedWallet.
Implicit Types (w : gmap string Q) (c : string) (a : Q).







Lemma removeCurrency_unknown w c a :
  w !! c = None → removeCurrency w c a = (w, false).
Proof.
  intros Hc. unfold removeCurrency. rewrite Hc. by destruct (Qltb a 0).
Qed.








End wallet.





(** ** Matching: one ask against the bids *)

Section matching.
Import OrderBook.
Variables ts prod : string.

Lemma matchPair_not_eligible ask bid :
  price bid < price ask →
  matchPair ts prod ask bid = mkIteration None ask bid false.
Proof. intros H. unfold matchPair. by rewrite (proj2 (Qgeb_false _ _) H). Qed.

Lemma matchPair_equal ask bid :
  price ask <= price bid → amount bid == amount ask →
  matchPair ts prod ask bid =
    mkIteration (Some (set_amount (new_sale ask bid ts prod) (amount ask)))
      ask (set_amount bid 0) true.
Proof.
  intros Hp Ha. unfold matchPair.
  by rewrite (proj2 (Qgeb_true _ _) Hp), (proj2 (Qeq_bool_iff _ _) Ha).
Qed.

Lemma matchPair_bid_greater ask bid :
  price ask <= price bid → amount ask < amount bid →
  matchPair ts prod ask bid =
    mkIteration (Some (set_amount (new_sale ask bid ts prod) (amount ask)))
      ask (set_amount bid (amount bid - amount ask)) true.
Proof.
  intros Hp Ha. unfold matchPair, Qgtb.
  rewrite (proj2 (Qgeb_true _ _) Hp), (proj2 (Qltb_true _ _) Ha).
  assert (¬ amount bid == amount ask) as Hne by lra.
  by rewrite (proj2 (Qeq_bool_false _ _) Hne).
Qed.

Lemma matchPair_bid_smaller ask bid :
  price ask <= price bid → 0 < amount bid → amount bid < amount ask →
  matchPair ts prod ask bid =
    mkIteration (Some (set_amount (new_sale ask bid ts prod) (amount bid)))
      (set_amount ask (amount ask - amount bid)) (set_amount bid 0) false.
Proof.
  intros Hp H0 Ha. unfold matchPair, Qgtb.
  rewrite (proj2 (Qgeb_true _ _) Hp), (proj2 (Qltb_true _ _) Ha),
    (proj2 (Qltb_true _ _) H0).
  assert (¬ amount bid == amount ask) as Hne by lra.
  assert (amount bid <= amount ask) as Hle by lra.
  by rewrite (proj2 (Qeq_bool_false _ _) Hne), (proj2 (Qltb_false _ _) Hle).
Qed.

Lemma matchPair_bid_exhausted ask bid :
  amount bid == 0 → 0 < amount ask →
  matchPair ts prod ask bid = mkIteration None ask bid false.
Proof.
  intros Hb Ha. unfold matchPair, Qgtb.
  destruct (Qgeb (price bid) (price ask)); [|done].
  assert (¬ amount bid == amount ask) as Hne by lra.
  assert (amount bid <= amount ask) as Hle by lra.
  assert (amount bid <= 0) as Hle0 by lra.
  rewrite (proj2 (Qeq_bool_false _ _) Hne), (proj2 (Qltb_false _ _) Hle),
    (proj2 (Qltb_false _ _) Hle0).
  by rewrite andb_false_r.
Qed.

(** C2 (amended).  For an eligible pair (bid.price >= ask.price) met by
    the inner loop of one match call: with equal amounts the trade amount
    is ask.amount, the bid is set to 0 and the scan of the bids stops;
    with bid.amount > ask.amount the trade amount is ask.amount, the bid
    is reduced by ask.amount and the scan stops; with
    0 < bid.amount < ask.amount the trade amount is bid.amount, the ask is
    reduced by bid.amount, the bid is set to 0 and the scan goes on with
    the further bids; a bid with amount 0 produces no trade when the
    ask's amount is positive. *)
Theorem eligible_pair_resolution (ask bid : OrderBookEntry)
    (rest : list OrderBookEntry) :
  price ask <= price bid →
  let sale := new_sale ask bid ts prod in
  (amount bid == amount ask →
     scanBids ts prod ask (bid :: rest) =
       ([set_amount sale (amount ask)], ask, set_amount bid 0 :: rest)) ∧
  (amount ask < amount bid →
     scanBids ts prod ask (bid :: rest) =
       ([set_amount sale (amount ask)], ask,
        set_amount bid (amount bid - amount ask) :: rest)) ∧
  (0 < amount bid → amount bid < amount ask →
     scanBids ts prod ask (bid :: rest) =
       let '(sales, ask', rest') :=
         scanBids ts prod (set_amount ask (amount ask - amount bid)) rest in
       (set_amount sale (amount bid) :: sales, ask', set_amount bid 0 :: rest')) ∧
  (amount bid == 0 → 0 < amount ask →
     scanBids ts prod ask (bid :: rest) =
       let '(sales, ask', rest') := scanBids ts prod ask rest in
       (sales, ask', bid :: rest')).
Proof.
  intros Hp sale. repeat split.
  - intros Ha. simpl. by rewrite matchPair_equal.
  - intros Ha. simpl. by rewrite matchPair_bid_greater.
  - intros H0 Ha. simpl. rewrite matchPair_bid_smaller by done. simpl.
    by destruct (scanBids _ _ _ rest) as [[??]?].
  - intros Hb Ha. simpl. rewrite matchPair_bid_exhausted by done. simpl.
    by destruct (scanBids _ _ _ rest) as [[??]?].
Qed.
End matching.

Lemma eligible_pair_resolution_witness :
  let sale := OrderBook.new_sale ask_50 bid_10 "2020/03/17 17:01:30" "ETH/USDT" in
  OrderBook.scanBids "2020/03/17 17:01:30" "ETH/USDT" ask_50 [bid_10] =
    ([set_amount sale 10], set_amount ask_50 (50 - 10), [set_amount bid_10 0]).
Proof.
  intros sale.
  destruct (eligible_pair_resolution "2020/03/17 17:01:30" "ETH/USDT" ask_50 bid_10 [])
    as (_ & _ & Hsmaller & _); [by vm_compute|].
  rewrite Hsmaller; [reflexivity| |]; by vm_compute.
Defined.

(** C2, as stated, fails in its last clause: an eligible bid with amount 0
    that meets an ask with amount 0 takes the equal-amounts branch, which
    pushes a trade (of amount 0).  So does a bid exhausted by an earlier
    pairing of the same call: after the ask of 10 has taken all of the bid
    of 10, the ask of 0 trades with what is left of it. *)
Lemma exhausted_bid_trades_with_empty_ask :
  ¬ (∀ ts prod ask bid, price ask <= price bid → amount bid == 0 →
       OrderBook.pushed (OrderBook.matchPair ts prod ask bid) = None) ∧
  OrderBook.scanAsks "2020/03/17 17:01:30" "BTC/USDT" [ask_10; empty_ask] [bid_10_high] =
    ([OrderBook.entry 100 10 "2020/03/17 17:01:30" "BTC/USDT" OrderBookType.asksale;
      mkOrderBookEntry 100 0 "2020/03/17 17:01:30" "BTC/USDT" OrderBookType.asksale simuser],
     [ask_10; empty_ask], [set_amount bid_10_high 0]).
Proof.
  split; [|by vm_compute].
  intros H.
  specialize (H "2020/03/17 17:01:30"%string "BTC/USDT"%string empty_ask empty_bid).
  assert (price empty_ask <= price empty_bid) as Hp by (by vm_compute).
  assert (amount empty_bid == 0) as Ha by reflexivity.
  specialize (H Hp Ha). vm_compute in H. discriminate H.
Qed.

(** ** Matching: prices of the trades *)

Section trade_prices.
Import OrderBook.
Variables ts prod : string.

Lemma same_price_refl l : Forall2 same_price l l.
Proof. induction l; by constructor. Qed.

Lemma new_sale_price ask bid : price (new_sale ask bid ts prod) = price ask.
Proof.
  unfold new_sale.
  by destruct (String.eqb (username bid) simuser),
    (String.eqb (username ask) simuser).
Qed.

Lemma matchPair_prices ask bid :
  price (ask_after (matchPair ts prod ask bid)) = price ask ∧
  price (bid_after (matchPair ts prod ask bid)) = price bid.
Proof.
  unfold matchPair.
  repeat (match goal with |- context [if ?b then _ else _] => destruct b end);
    done.
Qed.

Lemma matchPair_pushed ask bid sale :
  pushed (matchPair ts prod ask bid) = Some sale →
  price sale = price ask ∧ price ask <= price bid.
Proof.
  unfold matchPair. destruct (Qgeb (price bid) (price ask)) eqn:Hp; [|done].
  qbool. intros Hs. split; [|done]. revert Hs.
  repeat (match goal with |- context [if ?b then _ else _] => destruct b end);
    simpl; intros [= <-] || done; apply new_sale_price.
Qed.

Lemma scanBids_prices bids : ∀ ask sales ask' bids',
  scanBids ts prod ask bids = (sales, ask', bids') →
  price ask' = price ask ∧ Forall2 same_price bids bids' ∧
  ∀ sale, sale ∈ sales →
    price sale = price ask ∧ ∃ bid, bid ∈ bids ∧ price ask <= price bid.
Proof.
  induction bids as [|bid rest IH]; intros ask sales ask' bids'; simpl.
  { intros [= <- <- <-].
    split; [done|split; [constructor|by intros ? ?%elem_of_nil]]. }
  pose proof (matchPair_prices ask bid) as [Hpa Hpb].
  pose proof (matchPair_pushed ask bid) as Hpush.
  destruct (matchPair ts prod ask bid) as [p a1 b1 br]; simpl in *.
  assert (∀ sale, sale ∈ option_list p →
    price sale = price ask ∧ ∃ bid0, bid0 ∈ bid :: rest ∧ price ask <= price bid0)
    as Hhere.
  { intros sale Hin. destruct p as [s|]; simpl in Hin; [|by apply elem_of_nil in Hin].
    apply list_elem_of_singleton in Hin as ->.
    destruct (Hpush s eq_refl) as [? ?]. split; [done|].
    exists bid. split; [left|done]. }
  destruct br.
  - intros [= <- <- <-]. split; [done|split; [|done]].
    constructor; [by symmetry|apply same_price_refl].
  - destruct (scanBids ts prod a1 rest) as [[s2 a2] r2] eqn:Hrec.
    intros [= <- <- <-].
    destruct (IH _ _ _ _ Hrec) as (Hpa2 & Hf2 & Hs2).
    split; [congruence|]. split; [constructor; [by symmetry|done]|].
    intros sale [Hin|Hin]%elem_of_app; [by apply Hhere|].
    destruct (Hs2 sale Hin) as (Hps & bid0 & Hb0 & Hle).
    rewrite Hpa in Hps, Hle. split; [done|].
    exists bid0. split; [by right|done].
Qed.

Lemma scanAsks_prices asks : ∀ bids sales asks' bids',
  scanAsks ts prod asks bids = (sales, asks', bids') →
  Forall2 same_price bids bids' ∧
  ∀ sale, sale ∈ sales →
    ∃ ask bid, ask ∈ asks ∧ bid ∈ bids ∧
      price ask <= price bid ∧ price sale = price ask.
Proof.
  induction asks as [|ask rest IH]; intros bids sales asks' bids'; simpl.
  { intros [= <- <- <-]. split; [|by intros ? ?%elem_of_nil].
    apply same_price_refl. }
  destruct (scanBids ts prod ask bids) as [[s1 a1] b1] eqn:Hin1.
  destruct (scanAsks ts prod rest b1) as [[s2 r2] b2] eqn:Hin2.
  intros [= <- <- <-].
  destruct (scanBids_prices _ _ _ _ _ Hin1) as (_ & Hf1 & Hs1).
  destruct (IH _ _ _ _ Hin2) as (Hf2 & Hs2).
  split.
  { eapply Forall2_trans; [|done..]. unfold same_price. congruence. }
  intros sale [Hin|Hin]%elem_of_app.
  - destruct (Hs1 sale Hin) as (Hps & bid & Hb & Hle).
    exists ask, bid. repeat split; [left|done..].
  - destruct (Hs2 sale Hin) as (ask0 & bid1 & Ha0 & Hb1 & Hle & Hps).
    destruct (proj1 (list_elem_of_lookup _ _) Hb1) as [i Hi].
    destruct (Forall2_lookup_r _ _ _ _ _ Hf1 Hi) as (bid0 & Hi0 & Hsame).
    exists ask0, bid0. repeat split; [by right| |by rewrite Hsame|done].
    by eapply list_elem_of_lookup_2.
Qed.
End trade_prices.

Section match_call.
Import OrderBook.
Context `{StdSort}.

Lemma elem_of_std_sort {A} (comp : A → A → bool) (l : list A) (x : A) :
  StrictWeakOrder comp → x ∈ std_sort comp l ↔ x ∈ l.
Proof. intros Hswo. by rewrite (std_sort_perm comp l Hswo). Qed.

(** C3.  Every trade returned by matchAsksToBids carries the price of an
    ask of the call, paired with a bid of the call whose price is at least
    that price; and in every pair that pushes a trade the trade's price is
    the ask's price, whatever the bid's price. *)
Theorem trade_price_is_ask_price (orders : list OrderBookEntry)
    (prod ts : string) (sale : OrderBookEntry) :
  sale ∈ matchAsksToBids orders prod ts →
  (∃ ask bid,
     ask ∈ getOrders OrderBookType.ask prod ts orders ∧
     bid ∈ getOrders OrderBookType.bid prod ts orders ∧
     price ask <= price bid ∧ price sale = price ask) ∧
  (∀ ask bid trade,
     pushed (matchPair ts prod ask bid) = Some trade →
     price ask <= price bid ∧ price trade = price ask).
Proof.
  intros Hin. split.
  - unfold matchAsksToBids in Hin.
    destruct (scanAsks ts prod _ _) as [[sales asks'] bids'] eqn:Hscan in Hin.
    simpl in Hin.
    destruct (scanAsks_prices _ _ _ _ _ _ _ Hscan) as [_ Hsales].
    destruct (Hsales sale Hin) as (ask & bid & Ha & Hb & Hle & Hp).
    apply elem_of_std_sort in Ha; [|apply compareByPriceAsc_swo].
    apply elem_of_std_sort in Hb; [|apply compareByPriceDesc_swo].
    by exists ask, bid.
  - intros ask bid trade Hpush.
    by destruct (matchPair_pushed ts prod ask bid trade Hpush).
Qed.
End match_call.

Lemma trade_price_is_ask_price_witness :
  let orders := OrderBook.insertOrder (H := merge_std_sort) OrderBook.OrderBook user_bid in
  let sale := mkOrderBookEntry 200 10 "2020/03/17 17:01:30" "ETH/USDT"
                OrderBookType.bidsale simuser in
  OrderBook.matchAsksToBids (H := merge_std_sort) orders "ETH/USDT" "2020/03/17 17:01:30"
    = [sale] ∧
  ∃ ask bid,
    ask ∈ OrderBook.getOrders OrderBookType.ask "ETH/USDT" "2020/03/17 17:01:30" orders ∧
    bid ∈ OrderBook.getOrders OrderBookType.bid "ETH/USDT" "2020/03/17 17:01:30" orders ∧
    price ask <= price bid ∧ price sale = price ask.
Proof.
  intros orders sale. split; [by vm_compute|].
  apply (trade_price_is_ask_price (H := merge_std_sort) orders "ETH/USDT"
           "2020/03/17 17:01:30" sale).
  assert (OrderBook.matchAsksToBids (H := merge_std_sort) orders "ETH/USDT"
            "2020/03/17 17:01:30" = [sale]) as -> by (by vm_compute).
  left.
Defined.

(** ** Matching: conservation of amounts *)

Section conservation.
Import OrderBook.
Variables ts prod : string.












End conservation.



Section match_call_conservation.
Import OrderBook.
Context `{StdSort}.



End match_call_conservation.

(** ** Matching: trades of amount 0 *)

Section zero_trades.
Import OrderBook.
Context `{StdSort}.

(* The contract fixes the result when no two elements are equivalent. *)
Lemma std_sort_unique {A} (comp : A → A → bool) (l expected : list A) :
  StrictWeakOrder comp → l ≡ₚ expected → is_sorted comp expected →
  (∀ x y, x ∈ expected → y ∈ expected → equiv_for comp x y → x = y) →
  std_sort comp l = expected.
Proof.
  intros Hswo Hperm Hsorted Huniq.
  apply (sorted_perm_unique comp); [done| |done|].
  - by apply std_sort_sorted.
  - by rewrite (std_sort_perm comp l Hswo).
Qed.

Lemma getOrders_perm type prod ts l1 l2 :
  l1 ≡ₚ l2 → getOrders type prod ts l1 ≡ₚ getOrders type prod ts l2.
Proof. intros Hp. unfold getOrders. by rewrite Hp. Qed.

Lemma insertOrder_perm orders order :
  insertOrder orders order ≡ₚ orders ++ [order].
Proof. apply std_sort_perm, compareByTimestamp_swo. Qed.

Lemma matchPair_zero_ask ts prod ask bid :
  price ask <= price bid → amount ask == 0 → 0 < amount bid →
  matchPair ts prod ask bid =
    mkIteration (Some (set_amount (new_sale ask bid ts prod) (amount ask)))
      ask (set_amount bid (amount bid - amount ask)) true ∧
  amount bid - amount ask == amount bid.
Proof.
  intros Hp Ha Hb. split; [|lra]. apply matchPair_bid_greater; [done|lra].
Qed.

(** C10.  matchAsksToBids can return a trade of amount 0.  In the seeded
    book with the user's ask of amount 0 at price 9000 inserted, the call
    for BTC/USDT at the first time step returns exactly one trade, of
    amount 0: the ask meets the bid of 1.0 at 10100 and takes the
    bid-greater-than-ask branch.  In general that branch, for an ask of
    amount 0 and an eligible bid of positive amount, pushes a trade of the
    ask's amount, leaves the ask as it is and the bid with
    bid.amount - 0, and breaks. *)
Theorem zero_amount_trade :
  let ts := "2020/03/17 17:01:24"%string in
  let prod := "BTC/USDT"%string in
  let orders := insertOrder OrderBook.OrderBook zero_ask in
  zero_ask ∈ orders ∧ amount zero_ask = 0 ∧
  matchAsksToBids orders prod ts =
    [mkOrderBookEntry 9000 0 ts prod OrderBookType.asksale simuser] ∧
  ∀ ts prod ask bid,
    price ask <= price bid → amount ask == 0 → 0 < amount bid →
    matchPair ts prod ask bid =
      mkIteration (Some (set_amount (new_sale ask bid ts prod) (amount ask)))
        ask (set_amount bid (amount bid - amount ask)) true ∧
    amount bid - amount ask == amount bid.
Proof.
  intros ts prod orders.
  pose proof (insertOrder_perm OrderBook.OrderBook zero_ask) as Hperm.
  split; [|split; [done|split; [|apply matchPair_zero_ask]]].
  { unfold orders. rewrite Hperm. apply elem_of_app. right. left. }
  assert (getOrders OrderBookType.ask prod ts orders ≡ₚ
            [zero_ask; entry 10500 (1 # 5) ts prod OrderBookType.ask]) as Hasks.
  { unfold orders. rewrite (getOrders_perm _ _ _ _ _ Hperm).
    vm_compute. apply Permutation_swap. }
  assert (getOrders OrderBookType.bid prod ts orders ≡ₚ
            [entry 10100 1 ts prod OrderBookType.bid;
             entry 10000 (1 # 2) ts prod OrderBookType.bid]) as Hbids.
  { unfold orders. rewrite (getOrders_perm _ _ _ _ _ Hperm).
    vm_compute. apply Permutation_swap. }
  unfold matchAsksToBids.
  rewrite (std_sort_unique compareByPriceAsc _ _ compareByPriceAsc_swo Hasks).
  rewrite (std_sort_unique compareByPriceDesc _ _ compareByPriceDesc_swo Hbids).
  - by vm_compute.
  - apply (bool_decide_unpack _). by vm_compute.
  - intros x y Hx Hy [Hxy Hyx].
    apply elem_of_cons in Hx as [->|Hx]; [|apply list_elem_of_singleton in Hx as ->];
    (apply elem_of_cons in Hy as [->|Hy]; [|apply list_elem_of_singleton in Hy as ->]);
    try done; by vm_compute in Hxy, Hyx.
  - apply (bool_decide_unpack _). by vm_compute.
  - intros x y Hx Hy [Hxy Hyx].
    apply elem_of_cons in Hx as [->|Hx]; [|apply list_elem_of_singleton in Hx as ->];
    (apply elem_of_cons in Hy as [->|Hy]; [|apply list_elem_of_singleton in Hy as ->]);
    try done; by vm_compute in Hxy, Hyx.
Qed.
End zero_trades.

Lemma zero_amount_trade_witness :
  OrderBook.matchAsksToBids (H := merge_std_sort)
    (OrderBook.insertOrder (H := merge_std_sort) OrderBook.OrderBook zero_ask)
    "BTC/USDT" "2020/03/17 17:01:24" =
  [mkOrderBookEntry 9000 0 "2020/03/17 17:01:24" "BTC/USDT"
     OrderBookType.asksale simuser].
Proof. apply (zero_amount_trade (H := merge_std_sort)). Defined.

(** ** Highest and lowest price *)

Section high_low.
Import OrderBook.



End high_low.



(** ** Splitting the product *)

Section tokenise.
Import CSVReader.

Lemma find_from_bounds p s : ∀ idx pos,
  find_from p s idx pos = npos ∨
  (pos ≤ find_from p s idx pos ∧
   idx ≤ find_from p s idx pos < idx + strlen s)%Z.
Proof.
  unfold strlen. induction s as [|c s IH]; intros idx pos; simpl; [by left|].
  destruct ((pos <=? idx)%Z && p c)%bool eqn:Hhit.
  - right. apply andb_prop in Hhit as [Hle _]. lia.
  - destruct (IH (idx + 1)%Z pos) as [->|Hin]; [by left|right; lia].
Qed.

Lemma find_first_of_bounds s sep start :
  find_first_of s sep start = npos ∨
  (start ≤ find_first_of s sep start < strlen s)%Z.
Proof.
  unfold find_first_of. destruct (start <? 0)%Z; [by left|].
  destruct (find_from_bounds (λ c, Ascii.eqb c sep) s 0 start) as [->|?];
    [by left|right; lia].
Qed.

(* The loop never runs out of fuel: beyond [strlen s - start] iterations
   more fuel changes nothing. *)
Lemma tokenise_loop_fuel n : ∀ s sep start k,
  (strlen s - start ≤ Z.of_nat n)%Z →
  tokenise_loop (S n + k) s sep start = tokenise_loop (S n) s sep start.
Proof.
  induction n as [|n IH]; intros s sep start k Hn;
    cbn [tokenise_loop Nat.add];
    destruct ((start =? strlen s)%Z || (start =? find_first_of s sep start)%Z)%bool
      eqn:Hbreak; try done;
    apply orb_false_elim in Hbreak as [Hlen Hend];
    apply Z.eqb_neq in Hlen, Hend;
    destruct (0 <? find_first_of s sep start)%Z eqn:Hpos; try done;
    apply Z.ltb_lt in Hpos;
    destruct (find_first_of_bounds s sep start) as [Hnone|Hin];
    try (unfold npos in Hnone; lia).
  - lia.
  - f_equal. apply (IH s sep _ k). lia.
Qed.

Lemma tokenise_fuel s sep k :
  tokenise_loop (S (String.length s) + k) s sep (find_first_not_of s sep 0) =
  tokenise s sep.
Proof.
  unfold tokenise, find_first_not_of.
  change (0 <? 0)%Z with false. cbv iota.
  destruct (find_from_bounds (λ c, negb (Ascii.eqb c sep)) s 0 0) as [->|Hin].
  - done.
  - apply tokenise_loop_fuel. unfold strlen in *. lia.
Qed.

Lemma substring_not_empty s : ∀ n m,
  (n < String.length s)%nat → (0 < m)%nat → String.substring n m s ≠ ""%string.
Proof.
  induction s as [|c s IH]; intros n m Hn Hm; simpl in Hn; [lia|].
  destruct n as [|n]; simpl.
  - destruct m; [lia|done].
  - apply IH; lia.
Qed.

(* Every token pushed by the loop holds at least one character. *)
Lemma tokenise_loop_not_empty fuel : ∀ s sep start tok,
  (0 ≤ start ≤ strlen s)%Z →
  tok ∈ tokenise_loop fuel s sep start → tok ≠ ""%string.
Proof.
  induction fuel as [|fuel IH]; intros s sep start tok Hstart; simpl;
    [by intros ?%elem_of_nil|].
  destruct ((start =? strlen s)%Z || (start =? find_first_of s sep start)%Z)%bool
    eqn:Hbreak; [by intros ?%elem_of_nil|].
  apply orb_false_elim in Hbreak as [Hlen Hend].
  apply Z.eqb_neq in Hlen, Hend.
  pose proof (find_first_of_bounds s sep start) as Hbounds.
  unfold npos, strlen, substr in *.
  intros [->|Hin]%elem_of_cons.
  - destruct (0 <=? find_first_of s sep start)%Z eqn:Hpos.
    + apply Z.leb_le in Hpos. apply substring_not_empty; lia.
    + apply substring_not_empty; lia.
  - destruct (0 <? find_first_of s sep start)%Z eqn:Hpos;
      [|by apply elem_of_nil in Hin].
    apply Z.ltb_lt in Hpos.
    apply (IH s sep (find_first_of s sep start + 1)%Z tok); [lia|done].
Qed.

Lemma tokenise_not_empty s sep tok : tok ∈ tokenise s sep → tok ≠ ""%string.
Proof.
  unfold tokenise, find_first_not_of. change (0 <? 0)%Z with false. cbv iota.
  destruct (find_from_bounds (λ c, negb (Ascii.eqb c sep)) s 0 0) as [->|Hin].
  - simpl. rewrite orb_true_r. by intros ?%elem_of_nil.
  - apply tokenise_loop_not_empty. unfold strlen in *. lia.
Qed.

Lemma tokenise_no_separator :
  tokenise "BTCUSDT" ExtendedWallet.slash = ["BTCUSDT"%string].
Proof. reflexivity. Qed.

Lemma tokenise_empty : tokenise "" ExtendedWallet.slash = [].
Proof. reflexivity. Qed.

Lemma tokenise_pair :
  tokenise "BTC/USDT" ExtendedWallet.slash = ["BTC"%string; "USDT"%string].
Proof. reflexivity. Qed.
End tokenise.

Section split.
Import Wallet ExtendedWallet.

Lemma canFulfillOrder_undefined w order :
  canFulfillOrder w order = Undefined ↔
    (orderType order = OrderBookType.ask ∧
     CSVReader.tokenise (product order) slash = []) ∨
    (orderType order = OrderBookType.bid ∧
     (length (CSVReader.tokenise (product order) slash) < 2)%nat).
Proof.
  unfold canFulfillOrder.
  destruct (CSVReader.tokenise (product order) slash) as [|c0 [|c1 rest]];
    unfold index; simpl; repeat case_decide; simpl;
    intuition (try congruence; simpl in *; try lia).
Qed.

Lemma processSale_undefined w sale :
  processSale w sale = Undefined ↔
    (orderType sale = OrderBookType.asksale ∨ orderType sale = OrderBookType.bidsale) ∧
    (length (CSVReader.tokenise (product sale) slash) < 2)%nat.
Proof.
  unfold processSale.
  destruct (CSVReader.tokenise (product sale) slash) as [|c0 [|c1 rest]];
    unfold index; simpl; repeat case_decide; simpl;
    intuition (try congruence; simpl in *; try lia).
Qed.

Lemma two_tokens_suffice w order :
  (2 ≤ length (CSVReader.tokenise (product order) slash))%nat →
  (∃ b, canFulfillOrder w order = Returns b) ∧
  (∃ w', processSale w order = Returns w').
Proof.
  unfold canFulfillOrder, processSale.
  destruct (CSVReader.tokenise (product order) slash) as [|c0 [|c1 rest]];
    simpl; [lia..|]. intros _.
  unfold index; simpl. split; repeat case_decide; simpl; eauto.
Qed.

Lemma defined_for_all_types w order :
  (∀ o, product o = product order →
     canFulfillOrder w o ≠ Undefined ∧ processSale w o ≠ Undefined) ↔
  (2 ≤ length (CSVReader.tokenise (product order) slash))%nat.
Proof.
  split.
  - intros Hall.
    destruct (Hall (mkOrderBookEntry 0 0 "" (product order) OrderBookType.bid "")
                eq_refl) as [Hcan _].
    rewrite canFulfillOrder_undefined in Hcan. simpl in Hcan.
    destruct (decide (2 ≤ length (CSVReader.tokenise (product order) slash))%nat)
      as [?|Hshort]; [done|].
    destruct Hcan. right. split; [done|lia].
  - intros Htwo o Ho. rewrite <- Ho in Htwo.
    destruct (two_tokens_suffice w o Htwo) as [[b ->] [w' ->]]. by split.
Qed.

(** C9.  canFulfillOrder and processSale index the tokens of the product
    without checking their number.  canFulfillOrder has no defined result
    exactly for an ask whose product gives no token (index 0) and for a bid
    whose product gives fewer than two (index 1); processSale has none
    exactly for a sale (asksale or bidsale) whose product gives fewer than
    two; so both are defined for every type of order exactly when the
    product splits into at least two tokens (tokens are never empty), and
    then both return.  A product without separator gives one token and an
    empty product none, so a bid or a sale on "BTCUSDT" and an ask on ""
    have no defined result. *)
Theorem split_needs_two_tokens (w : gmap string Q) (order : OrderBookEntry) :
  let currs := CSVReader.tokenise (product order) slash in
  ((canFulfillOrder w order = Undefined ↔
      (orderType order = OrderBookType.ask ∧ currs = []) ∨
      (orderType order = OrderBookType.bid ∧ (length currs < 2)%nat)) ∧
   (processSale w order = Undefined ↔
      (orderType order = OrderBookType.asksale ∨
       orderType order = OrderBookType.bidsale) ∧ (length currs < 2)%nat) ∧
   ((2 ≤ length currs)%nat →
      (∃ b, canFulfillOrder w order = Returns b) ∧
      (∃ w', processSale w order = Returns w')) ∧
   ((∀ o, product o = product order →
       canFulfillOrder w o ≠ Undefined ∧ processSale w o ≠ Undefined) ↔
    (2 ≤ length currs)%nat) ∧
   (∀ tok, tok ∈ currs → tok ≠ ""%string)) ∧
  CSVReader.tokenise "BTCUSDT" slash = ["BTCUSDT"%string] ∧
  CSVReader.tokenise "" slash = [] ∧
  canFulfillOrder w bid_no_separator = Undefined ∧
  processSale w sale_no_separator = Undefined ∧
  canFulfillOrder w ask_no_product = Undefined.
Proof.
  intros currs. split; [|by repeat split].
  split; [|split; [|split; [|split]]].
  - apply canFulfillOrder_undefined.
  - apply processSale_undefined.
  - apply two_tokens_suffice.
  - apply defined_for_all_types.
  - apply tokenise_not_empty.
Qed.
End split.

Lemma split_needs_two_tokens_witness :
  (∃ b, ExtendedWallet.canFulfillOrder init_wallet user_bid = Returns b) ∧
  (∃ w, ExtendedWallet.processSale init_wallet user_bid = Returns w).
Proof.
  destruct (split_needs_two_tokens init_wallet user_bid) as [(_ & _ & Htwo & _) _].
  apply Htwo. vm_compute. lia.
Defined.

(** ** The book: insertion keeps it sorted by timestamp *)

Section book.
Import OrderBook.
Context `{StdSort}.

End book.



(** ** The book: time steps *)

Section time_steps.
Import OrderBook.

Lemma ltb_not_empty ts r : String.ltb ts r = true → String.eqb r "" = false.
Proof.
  intros Hlt. apply String.eqb_neq. intros ->. by rewrite ltb_empty_r in Hlt.
Qed.

Lemma first_after_none ts orders :
  (∀ e, e ∈ orders → String.ltb ts (timestamp e) = false) →
  first_after ts orders = ""%string.
Proof.
  induction orders as [|e rest IH]; intros Hnone; simpl; [done|].
  rewrite (Hnone e) by left. apply IH. intros e' Hin. apply Hnone. by right.
Qed.

Lemma first_after_least ts orders :
  is_sorted compareByTimestamp orders →
  (∃ e, e ∈ orders ∧ String.ltb ts (timestamp e) = true) →
  least_after orders ts (first_after ts orders).
Proof.
  unfold least_after.
  induction orders as [|e rest IH]; intros Hsorted (e1 & Hin1 & Hlt1); simpl.
  { by apply elem_of_nil in Hin1. }
  apply StronglySorted_inv in Hsorted as [Hrest Hhead].
  destruct (String.ltb ts (timestamp e)) eqn:Hlt.
  - split; [exists e; split; [left|done]|]. split; [done|].
    intros e' [->|Hin]%elem_of_cons _; [apply ts_le_refl|].
    rewrite Forall_forall in Hhead. apply (Hhead e' Hin).
  - apply elem_of_cons in Hin1 as [->|Hin1]; [congruence|].
    destruct IH as ((e2 & Hin2 & He2) & Hlt2 & Hleast); [done|by exists e1|].
    split; [exists e2; split; [by right|done]|]. split; [done|].
    intros e' [->|Hin]%elem_of_cons Hlt'; [congruence|by apply Hleast].
Qed.

Lemma getNextTime_least orders ts :
  is_sorted compareByTimestamp orders →
  (∃ e, e ∈ orders ∧ String.ltb ts (timestamp e) = true) →
  ∃ r, getNextTime orders ts = Returns r ∧ least_after orders ts r.
Proof.
  intros Hsorted Hsome. exists (first_after ts orders).
  pose proof (first_after_least ts orders Hsorted Hsome) as Hleast.
  split; [|done]. unfold getNextTime.
  destruct Hleast as (_ & Hlt & _). by rewrite (ltb_not_empty _ _ Hlt).
Qed.

Lemma getNextTime_wraps orders ts e0 :
  head orders = Some e0 →
  (∀ e, e ∈ orders → String.ltb ts (timestamp e) = false) →
  getNextTime orders ts = Returns (timestamp e0).
Proof.
  intros Hhead Hnone. unfold getNextTime.
  rewrite (first_after_none ts orders Hnone). simpl.
  destruct orders as [|e rest]; [done|]. by injection Hhead as ->.
Qed.

Lemma sorted_head_least e0 rest e :
  is_sorted compareByTimestamp (e0 :: rest) → e ∈ e0 :: rest →
  ts_le (timestamp e0) (timestamp e).
Proof.
  intros [Hrest Hhead]%StronglySorted_inv [->|Hin]%elem_of_cons;
    [apply ts_le_refl|].
  rewrite Forall_forall in Hhead. apply (Hhead e Hin).
Qed.

Lemma sorted_last_greatest orders el e :
  is_sorted compareByTimestamp orders → last orders = Some el → e ∈ orders →
  String.ltb (timestamp el) (timestamp e) = false.
Proof.
  intros Hsorted [front ->]%last_Some [Hin|Hin]%elem_of_app.
  - apply (StronglySorted_app_1_elem_of _ front [el] e el Hsorted Hin). left.
  - apply list_elem_of_singleton in Hin as ->. apply ltb_irrefl.
Qed.

Context `{StdSort}.

Lemma seed_sorted : is_sorted compareByTimestamp OrderBook.OrderBook.
Proof. apply (bool_decide_unpack _). by vm_compute. Qed.

Lemma reachable_sorted orders :
  reachable orders → is_sorted compareByTimestamp orders.
Proof.
  induction 1; [apply seed_sorted|].
  apply std_sort_sorted, compareByTimestamp_swo.
Qed.

Lemma reachable_head orders : reachable orders → ∃ e0, head orders = Some e0.
Proof.
  intros [|orders' order _]; [by eexists|].
  pose proof (insertOrder_perm orders' order) as Hp.
  destruct (insertOrder orders' order) as [|e0 rest]; [|by exists e0].
  apply Permutation_length in Hp. rewrite length_app in Hp. simpl in Hp. lia.
Qed.

(** C8.  Every reachable book (the seeded collection followed by any
    insertOrder calls) is sorted ascending by timestamp; so getEarliestTime
    returns the timestamp of the first entry, which no stored timestamp is
    below, and whenever some stored timestamp is greater than [ts] the scan
    of getNextTime, which stops at the first greater one, returns the
    smallest stored timestamp greater than [ts]. *)
Theorem reachable_book_is_sorted (orders : list OrderBookEntry) :
  reachable orders →
  is_sorted compareByTimestamp orders ∧
  (∃ earliest, getEarliestTime orders = Returns earliest ∧
     (∃ e, e ∈ orders ∧ timestamp e = earliest) ∧
     ∀ e, e ∈ orders → ts_le earliest (timestamp e)) ∧
  (∀ ts, (∃ e, e ∈ orders ∧ String.ltb ts (timestamp e) = true) →
     ∃ r, getNextTime orders ts = Returns r ∧ least_after orders ts r).
Proof.
  intros Hr. pose proof (reachable_sorted orders Hr) as Hsorted.
  split; [done|]. split.
  - destruct (reachable_head orders Hr) as [e0 Hhead].
    destruct orders as [|e0' rest]; [done|]. injection Hhead as ->.
    exists (timestamp e0). split; [done|].
    split; [exists e0; split; [left|done]|].
    intros e Hin. by apply (sorted_head_least e0 rest).
  - intros ts. by apply getNextTime_least.
Qed.

(** C5.  In a reachable book, for every stored timestamp [t], getNextTime
    returns a timestamp: the smallest stored timestamp strictly greater
    than [t] when there is one, and the timestamp of the very first entry
    when there is none; called with the timestamp of the last entry it
    returns the timestamp of the first. *)
Theorem getNextTime_next_or_wraps (orders : list OrderBookEntry) (t : string) :
  reachable orders →
  (∃ e, e ∈ orders ∧ timestamp e = t) →
  ∃ r first, getNextTime orders t = Returns r ∧ head orders = Some first ∧
    ((∃ e, e ∈ orders ∧ String.ltb t (timestamp e) = true) →
       least_after orders t r) ∧
    ((∀ e, e ∈ orders → String.ltb t (timestamp e) = false) →
       r = timestamp first) ∧
    (∀ e, last orders = Some e → timestamp e = t → r = timestamp first).
Proof.
  intros Hr _. pose proof (reachable_sorted orders Hr) as Hsorted.
  destruct (reachable_head orders Hr) as [first Hhead].
  assert (∀ r, getNextTime orders t = Returns r →
            (∀ e, e ∈ orders → String.ltb t (timestamp e) = false) →
            r = timestamp first) as Hwrap.
  { intros r Hnext Hnone.
    rewrite (getNextTime_wraps orders t first Hhead Hnone) in Hnext.
    by injection Hnext. }
  destruct (decide (Exists (λ e, String.ltb t (timestamp e) = true) orders))
    as [Hex|Hnex].
  - apply Exists_exists in Hex.
    destruct (getNextTime_least orders t Hsorted Hex) as (r & Hnext & Hleast).
    exists r, first. split; [done|]. split; [done|]. split; [done|].
    split; [by apply Hwrap|].
    intros e Hlast <-. apply Hwrap; [done|].
    intros e' Hin. by apply (sorted_last_greatest orders e e').
  - assert (∀ e, e ∈ orders → String.ltb t (timestamp e) = false) as Hnone.
    { intros e Hin. destruct (String.ltb t (timestamp e)) eqn:Hlt; [|done].
      destruct Hnex. apply Exists_exists. by exists e. }
    exists (timestamp first), first.
    split; [by apply getNextTime_wraps|]. split; [done|]. split; [|done].
    intros (e & Hin & Hlt). rewrite (Hnone e Hin) in Hlt. done.
Qed.
End time_steps.

Lemma reachable_book_is_sorted_witness :
  let orders := OrderBook.insertOrder (H := merge_std_sort) OrderBook.OrderBook user_bid in
  is_sorted compareByTimestamp orders ∧
  (∃ earliest, OrderBook.getEarliestTime orders = Returns earliest ∧
     (∃ e, e ∈ orders ∧ timestamp e = earliest) ∧
     ∀ e, e ∈ orders → ts_le earliest (timestamp e)) ∧
  (∀ ts, (∃ e, e ∈ orders ∧ String.ltb ts (timestamp e) = true) →
     ∃ r, OrderBook.getNextTime orders ts = Returns r ∧ least_after orders ts r).
Proof.
  apply (reachable_book_is_sorted (H := merge_std_sort)).
  apply reachable_insert, reachable_seed.
Defined.

Lemma getNextTime_next_or_wraps_witness :
  ∃ r first,
    OrderBook.getNextTime OrderBook.OrderBook "2020/03/17 17:01:30" = Returns r ∧
    head OrderBook.OrderBook = Some first ∧
    ((∃ e, e ∈ OrderBook.OrderBook ∧
        String.ltb "2020/03/17 17:01:30" (timestamp e) = true) →
       least_after OrderBook.OrderBook "2020/03/17 17:01:30" r) ∧
    ((∀ e, e ∈ OrderBook.OrderBook →
        String.ltb "2020/03/17 17:01:30" (timestamp e) = false) →
       r = timestamp first) ∧
    (∀ e, last OrderBook.OrderBook = Some e →
       timestamp e = "2020/03/17 17:01:30"%string → r = timestamp first).
Proof.
  apply (getNextTime_next_or_wraps (H := merge_std_sort)).
  - apply reachable_seed.
  - exists (OrderBook.entry 190 10 "2020/03/17 17:01:30" "ETH/USDT" OrderBookType.bid).
    split; [|done]. repeat constructor.
Defined.

(** * Further properties of the code *)

(** ** tokenise: positions in a string that extends another *)

Section tokenise_fields.
Import CSVReader.

Lemma append_nil_l s : "" +:+ s = s.
Proof. reflexivity. Qed.

Lemma append_cons c s1 s2 : String c s1 +:+ s2 = String c (s1 +:+ s2).
Proof. reflexivity. Qed.

Lemma strlen_append s1 s2 : strlen (s1 +:+ s2) = (strlen s1 + strlen s2)%Z.
Proof.
  unfold strlen. induction s1 as [|c s1 IH];
    rewrite ?append_nil_l, ?append_cons; simpl; lia.
Qed.

Lemma strlen_nonneg s : (0 ≤ strlen s)%Z.
Proof. unfold strlen. lia. Qed.

Lemma append_empty_r s : s +:+ "" = s.
Proof. induction s as [|c s IH]; [done|]. by rewrite append_cons, IH. Qed.

Lemma append_assoc s1 s2 s3 : (s1 +:+ s2) +:+ s3 = s1 +:+ (s2 +:+ s3).
Proof. induction s1 as [|c s1 IH]; [done|]. by rewrite !append_cons, IH. Qed.

(* Searching from beyond a prefix searches in what follows it. *)
Lemma find_from_skip p pre : ∀ s idx pos,
  (idx + strlen pre ≤ pos)%Z →
  find_from p (pre +:+ s) idx pos = find_from p s (idx + strlen pre)%Z pos.
Proof.
  unfold strlen. induction pre as [|c pre IH]; intros s idx pos Hpos;
    rewrite ?append_nil_l, ?append_cons; simpl.
  { f_equal. lia. }
  simpl String.length in Hpos. rewrite Nat2Z.inj_succ in Hpos.
  destruct (pos <=? idx)%Z eqn:Hle; [apply Z.leb_le in Hle; lia|]. simpl.
  rewrite IH by lia. f_equal. rewrite Nat2Z.inj_succ. lia.
Qed.

(* Positions move with the string. *)
Lemma find_from_move p s : ∀ idx pos d,
  (0 ≤ idx)%Z → (0 ≤ d)%Z →
  find_from p s (idx + d) (pos + d) =
    (if (find_from p s idx pos =? npos)%Z then npos
     else find_from p s idx pos + d)%Z.
Proof.
  unfold npos. induction s as [|c s IH]; intros idx pos d Hidx Hd; simpl; [done|].
  replace (pos + d <=? idx + d)%Z with (pos <=? idx)%Z
    by (destruct (Z.leb_spec pos idx), (Z.leb_spec (pos + d) (idx + d)); lia).
  destruct ((pos <=? idx)%Z && p c)%bool.
  - destruct (Z.eqb_spec idx (-1)); [lia|done].
  - replace (idx + d + 1)%Z with (idx + 1 + d)%Z by lia. apply IH; lia.
Qed.

Lemma find_first_of_move pre s sep start :
  (0 ≤ start)%Z →
  find_first_of (pre +:+ s) sep (strlen pre + start) =
    (if (find_first_of s sep start =? npos)%Z then npos
     else strlen pre + find_first_of s sep start)%Z.
Proof.
  intros Hstart. pose proof (strlen_nonneg pre) as Hpre. unfold find_first_of.
  destruct (Z.ltb_spec (strlen pre + start) 0); [lia|].
  destruct (Z.ltb_spec start 0); [lia|].
  rewrite find_from_skip by lia.
  replace (0 + strlen pre)%Z with (0 + strlen pre)%Z by done.
  rewrite (Z.add_comm (strlen pre) start).
  rewrite (find_from_move _ s 0 start (strlen pre)) by lia.
  destruct (_ =? npos)%Z; [done|lia].
Qed.

Lemma substring_skip pre : ∀ s n m,
  String.substring (String.length pre + n) m (pre +:+ s) = String.substring n m s.
Proof.
  induction pre as [|c pre IH]; intros s n m;
    rewrite ?append_nil_l, ?append_cons; simpl; [done|apply IH].
Qed.

Lemma substr_move pre s start len :
  (0 ≤ start)%Z →
  substr (pre +:+ s) (strlen pre + start) len = substr s start len.
Proof.
  intros Hstart. unfold substr, strlen.
  rewrite Z2Nat.inj_add, Nat2Z.id by lia. apply substring_skip.
Qed.

(* The loop started beyond a prefix is the loop on what follows it. *)
Lemma tokenise_loop_move fuel : ∀ pre s sep start,
  (0 ≤ start)%Z →
  tokenise_loop fuel (pre +:+ s) sep (strlen pre + start) =
  tokenise_loop fuel s sep start.
Proof.
  induction fuel as [|fuel IH]; intros pre s sep start Hstart; simpl; [done|].
  pose proof (strlen_nonneg pre) as Hpre.
  pose proof (find_first_of_bounds s sep start) as Hbounds.
  rewrite find_first_of_move, strlen_append by done.
  unfold npos in *.
  destruct (Z.eqb_spec (find_first_of s sep start) (-1)) as [Hnone|Hsome].
  - rewrite Hnone.
    replace (strlen pre + start =? strlen pre + strlen s)%Z
      with (start =? strlen s)%Z
      by (destruct (Z.eqb_spec start (strlen s)),
            (Z.eqb_spec (strlen pre + start) (strlen pre + strlen s)); lia).
    replace (strlen pre + start =? -1)%Z with false
      by (symmetry; apply Z.eqb_neq; lia).
    replace (start =? -1)%Z with false by (symmetry; apply Z.eqb_neq; lia).
    destruct (start =? strlen s)%Z; simpl; [done|].
    rewrite substr_move by done. do 2 f_equal. lia.
  - destruct Hbounds as [?|Hin]; [done|].
    replace (strlen pre + start =? strlen pre + strlen s)%Z
      with (start =? strlen s)%Z
      by (destruct (Z.eqb_spec start (strlen s)),
            (Z.eqb_spec (strlen pre + start) (strlen pre + strlen s)); lia).
    replace (strlen pre + start =? strlen pre + find_first_of s sep start)%Z
      with (start =? find_first_of s sep start)%Z
      by (destruct (Z.eqb_spec start (find_first_of s sep start)),
            (Z.eqb_spec (strlen pre + start)
               (strlen pre + find_first_of s sep start)); lia).
    destruct ((start =? strlen s)%Z || (start =? find_first_of s sep start)%Z)%bool
      eqn:Hbreak; [done|].
    apply orb_false_elim in Hbreak as [_ Hend]. apply Z.eqb_neq in Hend.
    replace (0 <=? strlen pre + find_first_of s sep start)%Z with true
      by (symmetry; apply Z.leb_le; lia).
    replace (0 <=? find_first_of s sep start)%Z with true
      by (symmetry; apply Z.leb_le; lia).
    replace (0 <? strlen pre + find_first_of s sep start)%Z with true
      by (symmetry; apply Z.ltb_lt; lia).
    replace (0 <? find_first_of s sep start)%Z with true
      by (symmetry; apply Z.ltb_lt; lia).
    rewrite substr_move by done. f_equal; [f_equal; lia|].
    replace (strlen pre + find_first_of s sep start + 1)%Z
      with (strlen pre + (find_first_of s sep start + 1))%Z by lia.
    apply IH. lia.
Qed.

(** ** tokenise: fields and separators *)

Lemma find_from_free sep t : ∀ x idx pos,
  sep_free sep t →
  find_from (λ c, Ascii.eqb c sep) (t +:+ x) idx pos =
  find_from (λ c, Ascii.eqb c sep) x (idx + strlen t)%Z pos.
Proof.
  unfold strlen. induction t as [|c t IH]; intros x idx pos Hfree;
    rewrite ?append_nil_l, ?append_cons; simpl.
  { f_equal. lia. }
  destruct Hfree as [Hc Hfree].
  rewrite (proj2 (Ascii.eqb_neq c sep) Hc), andb_false_r, IH by done.
  f_equal. lia.
Qed.

Lemma find_from_any_pos p s : ∀ idx pos pos',
  (pos ≤ idx)%Z → (pos' ≤ idx)%Z →
  find_from p s idx pos = find_from p s idx pos'.
Proof.
  induction s as [|c s IH]; intros idx pos pos' H1 H2; simpl; [done|].
  rewrite (proj2 (Z.leb_le pos idx) H1), (proj2 (Z.leb_le pos' idx) H2).
  destruct (p c); simpl; [done|]. apply IH; lia.
Qed.

Lemma substring_prefix t : ∀ x, String.substring 0 (String.length t) (t +:+ x) = t.
Proof.
  induction t as [|c t IH]; intros x; rewrite ?append_nil_l, ?append_cons; simpl.
  - by destruct x.
  - by rewrite IH.
Qed.

Lemma is_field_strlen sep t : is_field sep t → (0 < strlen t)%Z.
Proof. intros [Hne _]. unfold strlen. destruct t; [done|simpl; lia]. Qed.

Lemma substr_prefix t x : substr (t +:+ x) 0 (strlen t) = t.
Proof.
  unfold substr, strlen. rewrite Nat2Z.id. change (Z.to_nat 0) with 0%nat.
  apply substring_prefix.
Qed.

Lemma find_first_of_field sep t x :
  sep_free sep t →
  find_first_of (t +:+ x) sep 0 =
  find_from (λ c, Ascii.eqb c sep) x (strlen t) 0.
Proof.
  intros Hfree. unfold find_first_of. change (0 <? 0)%Z with false. cbv iota.
  by rewrite (find_from_free sep t x 0 0 Hfree), Z.add_0_l.
Qed.

(* A string that is one field: the loop pushes it and stops. *)
Lemma tokenise_loop_last fuel sep t :
  is_field sep t → tokenise_loop (S fuel) t sep 0 = [t].
Proof.
  intros Hfield. pose proof (is_field_strlen sep t Hfield) as Hlen.
  destruct Hfield as [_ Hfree]. cbn [tokenise_loop].
  assert (find_first_of t sep 0 = npos) as ->.
  { rewrite <- (append_empty_r t). by rewrite find_first_of_field. }
  rewrite (proj2 (Z.eqb_neq 0 (strlen t))) by lia.
  change (0 =? npos)%Z with false. change (0 <=? npos)%Z with false.
  change (0 <? npos)%Z with false. cbn [orb]. cbv iota.
  rewrite Z.sub_0_r. f_equal.
  rewrite <- (append_empty_r t) at 1. apply substr_prefix.
Qed.

(* A field followed by a separator: the loop pushes the field and goes on
   behind the separator. *)
Lemma tokenise_loop_field fuel sep t r :
  is_field sep t →
  tokenise_loop (S fuel) (t +:+ String sep r) sep 0 =
  t :: tokenise_loop fuel r sep 0.
Proof.
  intros Hfield. pose proof (is_field_strlen sep t Hfield) as Hlen.
  destruct Hfield as [_ Hfree]. cbn [tokenise_loop].
  assert (find_first_of (t +:+ String sep r) sep 0 = strlen t) as ->.
  { rewrite find_first_of_field by done. cbn [find_from].
    rewrite Ascii.eqb_refl, andb_true_r.
    by rewrite (proj2 (Z.leb_le 0 (strlen t))) by lia. }
  rewrite strlen_append.
  assert (0 < strlen (String sep r))%Z by (unfold strlen; simpl; lia).
  rewrite (proj2 (Z.eqb_neq 0 (strlen t + strlen (String sep r)))) by lia.
  rewrite (proj2 (Z.eqb_neq 0 (strlen t))) by lia.
  rewrite (proj2 (Z.leb_le 0 (strlen t))) by lia.
  rewrite (proj2 (Z.ltb_lt 0 (strlen t))) by lia.
  cbn [orb]. cbv iota. rewrite Z.sub_0_r, substr_prefix. f_equal.
  replace (t +:+ String sep r) with ((t +:+ String sep "") +:+ r)
    by (by rewrite append_assoc, append_cons, append_nil_l).
  replace (strlen t + 1)%Z with (strlen (t +:+ String sep "") + 0)%Z
    by (rewrite strlen_append; unfold strlen; simpl; lia).
  by apply tokenise_loop_move.
Qed.

Lemma tokenise_loop_end fuel sep : tokenise_loop fuel "" sep 0 = [].
Proof. by destruct fuel. Qed.

Lemma tokenise_loop_sep fuel sep r : tokenise_loop fuel (String sep r) sep 0 = [].
Proof.
  destruct fuel; [done|]. cbn [tokenise_loop].
  assert (find_first_of (String sep r) sep 0 = 0%Z) as ->.
  { unfold find_first_of. change (0 <? 0)%Z with false. cbv iota.
    cbn [find_from]. by rewrite Ascii.eqb_refl. }
  by rewrite Z.eqb_refl, orb_true_r.
Qed.

Lemma join_cons sep t t' rest :
  join sep (t :: t' :: rest) = t +:+ String sep (join sep (t' :: rest)).
Proof. reflexivity. Qed.

Lemma tokenise_loop_join sep fields : ∀ tail fuel,
  Forall (is_field sep) fields → fields ≠ [] → ends_fields sep tail →
  (strlen (join sep fields +:+ tail) < Z.of_nat fuel)%Z →
  tokenise_loop fuel (join sep fields +:+ tail) sep 0 = fields.
Proof.
  induction fields as [|t [|t' rest] IH]; intros tail fuel Hall Hne Htail Hfuel;
    [done| |].
  - apply Forall_inv in Hall. simpl join in *.
    pose proof (is_field_strlen sep t Hall) as Hlen.
    pose proof (strlen_nonneg tail). rewrite strlen_append in Hfuel.
    destruct fuel as [|fuel]; [lia|].
    destruct Htail as [->|[->|[r ->]]].
    + rewrite append_empty_r. by apply tokenise_loop_last.
    + rewrite tokenise_loop_field by done. by rewrite tokenise_loop_end.
    + rewrite tokenise_loop_field by done. by rewrite tokenise_loop_sep.
  - apply Forall_cons in Hall as [Ht Hrest].
    rewrite join_cons in *. rewrite append_assoc, append_cons in *.
    pose proof (is_field_strlen sep t Ht) as Hlen.
    rewrite strlen_append in Hfuel.
    assert (strlen (String sep (join sep (t' :: rest) +:+ tail)) =
            1 + strlen (join sep (t' :: rest) +:+ tail))%Z as Hs
      by (unfold strlen; simpl; lia).
    destruct fuel as [|fuel]; [pose proof (strlen_nonneg (join sep (t' :: rest) +:+ tail)); lia|].
    rewrite tokenise_loop_field by done. f_equal.
    apply IH; [done..|lia].
Qed.

Lemma find_first_not_of_field sep c s :
  c ≠ sep → find_first_not_of (String c s) sep 0 = 0%Z.
Proof.
  intros Hc. unfold find_first_not_of. change (0 <? 0)%Z with false. cbv iota.
  cbn [find_from]. by rewrite (proj2 (Ascii.eqb_neq c sep) Hc).
Qed.

Lemma tokenise_join_tail sep fields tail :
  Forall (is_field sep) fields → fields ≠ [] → ends_fields sep tail →
  tokenise (join sep fields +:+ tail) sep = fields.
Proof.
  intros Hall Hne Htail. unfold tokenise.
  assert (find_first_not_of (join sep fields +:+ tail) sep 0 = 0%Z) as ->.
  { destruct fields as [|t rest]; [done|].
    apply Forall_inv in Hall as [Hne' Hfree].
    destruct t as [|c t]; [done|]. destruct Hfree as [Hc _].
    destruct rest; simpl join; rewrite ?append_cons;
      by apply find_first_not_of_field. }
  apply tokenise_loop_join; [done..|]. unfold strlen. lia.
Qed.

(** X1.  tokenise gives back the fields of a line: for fields that are not
    empty and hold no separator, tokenising the fields joined by the
    separator returns exactly these fields, in order. *)
Theorem tokenise_join (sep : ascii) (fields : list string) :
  Forall (is_field sep) fields → tokenise (join sep fields) sep = fields.
Proof.
  intros Hall. destruct fields as [|t rest]; [done|].
  rewrite <- (append_empty_r (join sep (t :: rest))).
  apply tokenise_join_tail; [done..|]. by left.
Qed.

(** X2.  An empty field ends the tokenising.  After the fields of a line, a
    closing separator adds no token, and two separators in a row hide
    everything behind them: the tokens are the fields before them. *)
Theorem tokenise_stops_at_empty_field (sep : ascii) (fields : list string)
    (rest : string) :
  Forall (is_field sep) fields → fields ≠ [] →
  tokenise (join sep fields +:+ String sep "") sep = fields ∧
  tokenise (join sep fields +:+ String sep (String sep rest)) sep = fields.
Proof.
  intros Hall Hne. split; apply tokenise_join_tail; try done.
  - right. by left.
  - right. right. by exists rest.
Qed.

(** X3.  Separators at the start of a line are skipped: the line with one
    more separator in front gives the same tokens. *)
Theorem tokenise_skips_leading_separator (sep : ascii) (s : string) :
  tokenise (String sep s) sep = tokenise s sep.
Proof.
  unfold tokenise.
  assert (find_first_not_of (String sep s) sep 0 =
          (if (find_first_not_of s sep 0 =? npos)%Z then npos
           else find_first_not_of s sep 0 + 1)%Z) as ->.
  { unfold find_first_not_of. change (0 <? 0)%Z with false. cbv iota.
    cbn [find_from]. rewrite Ascii.eqb_refl, andb_false_r.
    rewrite (find_from_any_pos _ s (0 + 1) 0 (0 + 1)) by lia.
    by apply find_from_move. }
  pose proof (find_from_bounds (λ c, negb (Ascii.eqb c sep)) s 0 0) as Hb.
  assert (find_first_not_of s sep 0 =
          find_from (λ c, negb (Ascii.eqb c sep)) s 0 0) as Hstart by done.
  rewrite <- Hstart in Hb. unfold npos in *.
  destruct (Z.eqb_spec (find_first_not_of s sep 0) (-1)) as [->|Hsome].
  - cbn [tokenise_loop]. unfold find_first_of.
    change (-1 <? 0)%Z with true. cbv iota. unfold npos.
    by rewrite !Z.eqb_refl, !orb_true_r.
  - destruct Hb as [?|Hb]; [done|].
    change (String sep s) with (String sep "" +:+ s).
    replace (find_first_not_of s sep 0 + 1)%Z
      with (strlen (String sep "") + find_first_not_of s sep 0)%Z
      by (unfold strlen; simpl; lia).
    rewrite tokenise_loop_move by lia.
    replace (S (String.length (String sep "" +:+ s)))
      with (S (String.length s) + 1)%nat
      by (rewrite append_cons, append_nil_l; simpl; lia).
    apply tokenise_loop_fuel. unfold strlen. lia.
Qed.
End tokenise_fields.

Lemma tokenise_join_witness :
  CSVReader.tokenise (join "," ["ETH/BTC"; "200"; "0.5"]%string) "," =
  ["ETH/BTC"; "200"; "0.5"]%string.
Proof.
  apply tokenise_join. repeat constructor; by vm_compute.
Defined.

Lemma tokenise_stops_at_empty_field_witness :
  CSVReader.tokenise (join "," ["ETH/BTC"]%string +:+ String "," "") "," =
    ["ETH/BTC"%string] ∧
  CSVReader.tokenise (join "," ["ETH/BTC"]%string +:+ String "," (String "," "0.5"))
    "," = ["ETH/BTC"%string].
Proof.
  apply tokenise_stops_at_empty_field; [|done].
  repeat constructor; by vm_compute.
Defined.

(** ** tokenise: what a token is made of *)

Section tokens.
Import CSVReader.

(* Before the position found, no character at or after [pos] satisfies [p]. *)
Lemma find_from_first p s : ∀ idx pos (k : nat) c,
  (0 ≤ idx)%Z → (pos ≤ idx + Z.of_nat k)%Z →
  (find_from p s idx pos = npos ∨ idx + Z.of_nat k < find_from p s idx pos)%Z →
  String.get k s = Some c → p c = false.
Proof.
  unfold npos. induction s as [|c0 s IH]; intros idx pos k c Hidx Hpos Hr Hget;
    [done|]. simpl in Hr.
  destruct ((pos <=? idx)%Z && p c0)%bool eqn:Hhit; [lia|].
  destruct k as [|k]; simpl in Hget.
  - injection Hget as <-. apply andb_false_iff in Hhit as [Hle|Hp]; [|done].
    apply Z.leb_gt in Hle. lia.
  - apply (IH (idx + 1)%Z pos k c); [lia|lia| |done].
    destruct Hr as [?|?]; [by left|right; lia].
Qed.

Lemma sep_free_substring sep s : ∀ n m,
  (∀ k c, (n ≤ k < n + m)%nat → String.get k s = Some c → c ≠ sep) →
  sep_free sep (String.substring n m s).
Proof.
  induction s as [|c0 s IH]; intros n m Hall.
  { by destruct n, m. }
  destruct n as [|n]; simpl.
  - destruct m as [|m]; [done|]. split.
    + apply (Hall 0%nat c0); [lia|done].
    + apply IH. intros k c Hk Hget. apply (Hall (S k) c); [lia|done].
  - apply IH. intros k c Hk Hget. apply (Hall (S k) c); [lia|done].
Qed.

Lemma tokenise_loop_sep_free fuel : ∀ s sep start tok,
  (0 ≤ start ≤ strlen s)%Z →
  tok ∈ tokenise_loop fuel s sep start → sep_free sep tok.
Proof.
  induction fuel as [|fuel IH]; intros s sep start tok Hstart; simpl;
    [by intros ?%elem_of_nil|].
  destruct ((start =? strlen s)%Z || (start =? find_first_of s sep start)%Z)%bool
    eqn:Hbreak; [by intros ?%elem_of_nil|].
  apply orb_false_elim in Hbreak as [Hlen Hend].
  apply Z.eqb_neq in Hlen, Hend.
  pose proof (find_first_of_bounds s sep start) as Hbounds.
  assert (find_first_of s sep start = find_from (λ c, Ascii.eqb c sep) s 0 start)
    as Hfind.
  { unfold find_first_of. destruct (Z.ltb_spec start 0); [lia|done]. }
  unfold npos in *.
  intros [->|Hin]%elem_of_cons.
  - assert (∀ len (k : nat) c,
              (Z.to_nat start ≤ k < Z.to_nat start + Z.to_nat len)%nat →
              (find_first_of s sep start = -1 ∨
               start + len ≤ find_first_of s sep start)%Z →
              String.get k s = Some c → c ≠ sep) as Hfree.
    { intros len k c Hk Hr Hget. apply Ascii.eqb_neq.
      apply (find_from_first (λ c, Ascii.eqb c sep) s 0 start k c);
        [lia|lia| |done].
      rewrite <- Hfind. destruct Hr as [?|?]; [by left|right; lia]. }
    unfold substr.
    destruct (0 <=? find_first_of s sep start)%Z eqn:Hpos.
    + apply Z.leb_le in Hpos. apply sep_free_substring. intros k c Hk.
      apply (Hfree (find_first_of s sep start - start)%Z); [done|right; lia].
    + apply Z.leb_gt in Hpos. apply sep_free_substring. intros k c Hk.
      apply (Hfree (strlen s - start)%Z); [done|left].
      destruct Hbounds as [?|?]; [done|lia].
  - destruct (0 <? find_first_of s sep start)%Z eqn:Hpos;
      [|by apply elem_of_nil in Hin].
    apply Z.ltb_lt in Hpos.
    apply (IH s sep (find_first_of s sep start + 1)%Z tok); [lia|done].
Qed.

(** X4.  Every token returned by tokenise holds at least one character and
    never the separator. *)
Theorem tokenise_gives_fields (s : string) (sep : ascii) (tok : string) :
  tok ∈ tokenise s sep → is_field sep tok.
Proof.
  intros Hin. split; [by apply (tokenise_not_empty s sep)|].
  revert Hin. unfold tokenise, find_first_not_of.
  change (0 <? 0)%Z with false. cbv iota.
  destruct (find_from_bounds (λ c, negb (Ascii.eqb c sep)) s 0 0) as [->|Hin].
  - cbn [tokenise_loop]. unfold find_first_of.
    change (npos <? 0)%Z with true. cbv iota.
    rewrite Z.eqb_refl, orb_true_r. by intros ?%elem_of_nil.
  - apply tokenise_loop_sep_free. unfold strlen in *. lia.
Qed.
End tokens.

Lemma tokenise_gives_fields_witness : is_field "/" "USDT".
Proof.
  apply (tokenise_gives_fields "BTC/USDT" "/" "USDT"). vm_compute.
  right. left.
Defined.

(** ** Wallet: what a withdrawal and a deposit do *)

Section wallet_operations.
Import Wallet ExtendedWallet.
Implicit Types (w : gmap string Q) (c : string) (a : Q).



(** X5.  removeCurrency returns true exactly when the amount is not
    negative and the currency is known with a balance of at least the
    amount; then the balance of that currency drops by the amount and no
    other entry of the wallet changes.  When it returns false the wallet is
    unchanged; in particular an unknown currency is refused even for the
    amount 0. *)
Theorem removeCurrency_outcome (w : gmap string Q) (c : string) (a : Q) :
  let w' := (removeCurrency w c a).1 in
  let ok := (removeCurrency w c a).2 in
  (ok = true ↔ 0 <= a ∧ ∃ b, w !! c = Some b ∧ a <= b) ∧
  (ok = true → w' !! c = Some (balance w c - a) ∧
               ∀ c', c' ≠ c → w' !! c' = w !! c') ∧
  (ok = false → w' = w) ∧
  (w !! c = None → ok = false).
Proof.
  unfold removeCurrency, containsCurrency, balance.
  destruct (Qltb a 0) eqn:Hneg; qbool; simpl.
  { repeat split; try done. intros [? _]. lra. }
  destruct (w !! c) as [b|] eqn:Hc; simpl.
  - destruct (Qgeb b a) eqn:Hge; qbool; simpl.
    + repeat split; try done.
      * by exists b.
      * by rewrite lookup_insert_eq.
      * intros c' Hne. by rewrite lookup_insert_ne.
    + repeat split; try done. intros [_ (b' & [= <-] & ?)]. lra.
  - repeat split; try done. by intros [_ (b' & ? & _)].
Qed.

End wallet_operations.


(** ** Settlement: what processSale moves *)

Section settlement.
Import Wallet ExtendedWallet.
Implicit Types (w : gmap string Q) (c : string) (a : Q).







End settlement.



(** ** Validation and settlement together *)

Section validation.
Import Wallet ExtendedWallet.



End validation.


(** ** The book: known products *)

Section known_products.
Import OrderBook.

Lemma ltb_total s1 s2 :
  String.ltb s1 s2 = false → String.eqb s1 s2 = false → String.ltb s2 s1 = true.
Proof.
  intros Hlt Hne. destruct (String.ltb s2 s1) eqn:Hgt; [done|].
  apply String.eqb_neq in Hne. destruct Hne. by apply ltb_equiv.
Qed.

Lemma map_assign_keys k v m k' :
  k' ∈ keys (map_assign k v m) ↔ k' = k ∨ k' ∈ keys m.
Proof.
  unfold keys. induction m as [|[k0 v0] m IH]; simpl.
  { rewrite list_elem_of_singleton, elem_of_nil. tauto. }
  destruct (String.ltb k k0) eqn:Hlt; simpl; [by rewrite !elem_of_cons|].
  destruct (String.eqb_spec k k0) as [->|Hne]; simpl.
  { rewrite !elem_of_cons. tauto. }
  rewrite !elem_of_cons, IH. tauto.
Qed.

Lemma map_assign_sorted k v m :
  StronglySorted (λ k1 k2, String.ltb k1 k2 = true) (keys m) →
  StronglySorted (λ k1 k2, String.ltb k1 k2 = true) (keys (map_assign k v m)).
Proof.
  induction m as [|[k0 v0] m IH]; intros Hs; simpl.
  { repeat constructor. }
  apply StronglySorted_inv in Hs as [Hs Hhd]. fold (keys m) in Hs, Hhd.
  destruct (String.ltb k k0) eqn:Hlt; simpl.
  { constructor; [by constructor|]. constructor; [done|].
    eapply Forall_impl; [exact Hhd|]. intros k2 H2. by eapply ltb_trans. }
  destruct (String.eqb_spec k k0) as [->|Hne]; simpl.
  { by constructor. }
  constructor; [by apply IH|]. fold (keys (map_assign k v m)).
  apply Forall_forall. intros k2 [->|Hin]%map_assign_keys.
  - apply ltb_total; [done|]. by apply String.eqb_neq.
  - rewrite Forall_forall in Hhd. by apply Hhd.
Qed.

Lemma prodMap_keys orders : ∀ m p,
  p ∈ keys (fold_left (λ m e, map_assign (product e) true m) orders m) ↔
  p ∈ keys m ∨ ∃ e, e ∈ orders ∧ product e = p.
Proof.
  induction orders as [|e0 rest IH]; intros m p; simpl.
  { split; [by left|]. intros [?|(e & ?%elem_of_nil & _)]; done. }
  rewrite IH, map_assign_keys. split.
  - intros [[->|?]|(e & Hin & He)]; [right|by left|right].
    + exists e0. split; [left|done].
    + exists e. split; [by right|done].
  - intros [?|(e & [->|Hin]%elem_of_cons & He)]; [left; by right|left; by left|].
    right. by exists e.
Qed.

Lemma prodMap_sorted orders : ∀ m,
  StronglySorted (λ k1 k2, String.ltb k1 k2 = true) (keys m) →
  StronglySorted (λ k1 k2, String.ltb k1 k2 = true)
    (keys (fold_left (λ m e, map_assign (product e) true m) orders m)).
Proof.
  induction orders as [|e0 rest IH]; intros m Hs; simpl; [done|].
  by apply IH, map_assign_sorted.
Qed.

Lemma strictly_sorted_NoDup (l : list string) :
  StronglySorted (λ k1 k2, String.ltb k1 k2 = true) l → NoDup l.
Proof.
  induction 1 as [|k l Hs IH Hhd]; constructor; [|done].
  intros Hin. rewrite Forall_forall in Hhd. specialize (Hhd k Hin).
  by rewrite ltb_irrefl in Hhd.
Qed.

(** X10.  getKnownProducts lists exactly the products that occur in the
    book, each once, in strictly ascending order of their text. *)
Theorem getKnownProducts_lists_products (orders : list OrderBookEntry) :
  (∀ p, p ∈ getKnownProducts orders ↔ ∃ e, e ∈ orders ∧ product e = p) ∧
  StronglySorted (λ p1 p2, String.ltb p1 p2 = true) (getKnownProducts orders) ∧
  NoDup (getKnownProducts orders).
Proof.
  assert (StronglySorted (λ p1 p2, String.ltb p1 p2 = true)
            (getKnownProducts orders)) as Hs.
  { apply (prodMap_sorted orders []). constructor. }
  split; [|split; [done|by apply strictly_sorted_NoDup]].
  intros p. unfold getKnownProducts. fold (keys (fold_left
    (λ m e, map_assign (product e) true m) orders [])).
  rewrite prodMap_keys. split; [|by right].
  intros [?%elem_of_nil|?]; done.
Qed.
End known_products.

(** ** The book: queries after an insertion *)

Section queries.
Import OrderBook.
Context `{StdSort}.

Lemma getKnownProducts_elem orders p :
  p ∈ getKnownProducts orders ↔ ∃ e, e ∈ orders ∧ product e = p.
Proof.
  unfold getKnownProducts.
  fold (keys (fold_left (λ m e, map_assign (product e) true m) orders [])).
  rewrite prodMap_keys. split; [|by right].
  intros [?%elem_of_nil|?]; done.
Qed.

(** X11.  An inserted order is found again.  After insertOrder, getOrders
    returns, up to the order of the entries, what it returned before
    together with the new entry when the entry matches the three keys of
    the query; the new entry is found under its own type, product and
    timestamp, and its product is among the known products. *)
Theorem getOrders_after_insertOrder (orders : list OrderBookEntry)
    (order : OrderBookEntry) (type : OrderBookType.t) (prod ts : string) :
  getOrders type prod ts (insertOrder orders order) ≡ₚ
    getOrders type prod ts orders ++
    (if decide (orderType order = type ∧ product order = prod ∧ timestamp order = ts)
     then [order] else []) ∧
  order ∈ getOrders (orderType order) (product order) (timestamp order)
            (insertOrder orders order) ∧
  product order ∈ getKnownProducts (insertOrder orders order).
Proof.
  pose proof (insertOrder_perm orders order) as Hperm.
  split; [|split].
  - rewrite (getOrders_perm _ _ _ _ _ Hperm). unfold getOrders.
    rewrite filter_app. apply Permutation_app_head.
    rewrite filter_cons, filter_nil. by case_decide.
  - unfold getOrders. apply list_elem_of_filter. split; [done|].
    rewrite Hperm. apply elem_of_app. right. left.
  - apply getKnownProducts_elem. exists order. split; [|done].
    rewrite Hperm. apply elem_of_app. right. left.
Qed.
End queries.

(** ** The book: time steps on any collection *)

Section any_book.
Import OrderBook.

Lemma first_after_stored ts orders :
  first_after ts orders = ""%string ∨
  (String.ltb ts (first_after ts orders) = true ∧
   ∃ e, e ∈ orders ∧ timestamp e = first_after ts orders).
Proof.
  induction orders as [|e rest IH]; simpl; [by left|].
  destruct (String.ltb ts (timestamp e)) eqn:Hlt.
  - right. split; [done|]. exists e. split; [left|done].
  - destruct IH as [?|(Hlt' & e' & Hin & He)]; [by left|right].
    split; [done|]. exists e'. split; [by right|done].
Qed.

(** X12.  On a book that holds an entry, getNextTime returns, for any text
    it is given, the timestamp of a stored entry: one greater than the text,
    or else the timestamp of the first entry.  On an empty book getNextTime
    and getEarliestTime read orders[0] unchecked and have no defined
    result. *)
Theorem getNextTime_is_stored (orders : list OrderBookEntry) (ts : string) :
  (∀ first rest, orders = first :: rest →
     ∃ r, getNextTime orders ts = Returns r ∧
          (∃ e, e ∈ orders ∧ timestamp e = r) ∧
          (String.ltb ts r = true ∨ r = timestamp first)) ∧
  getNextTime [] ts = Undefined ∧
  getEarliestTime [] = Undefined.
Proof.
  split; [|done]. intros first rest ->. unfold getNextTime.
  destruct (first_after_stored ts (first :: rest)) as [->|(Hlt & e & Hin & He)].
  - simpl. exists (timestamp first). split; [done|]. split; [|by right].
    exists first. split; [left|done].
  - rewrite (ltb_not_empty _ _ Hlt). eexists. split; [done|].
    split; [by exists e|by left].
Qed.
End any_book.

(** ** Matching: when trades are made, and how they are labelled *)

Section trades.
Import OrderBook.
Variables ts prod : string.

Lemma scanBids_no_cross ask bids :
  (∀ bid, bid ∈ bids → price bid < price ask) →
  scanBids ts prod ask bids = ([], ask, bids).
Proof.
  induction bids as [|bid rest IH]; intros Hno; simpl; [done|].
  rewrite matchPair_not_eligible by (apply Hno; left). simpl.
  rewrite IH; [done|]. intros b Hb. apply Hno. by right.
Qed.

Lemma scanAsks_no_cross asks bids :
  (∀ ask bid, ask ∈ asks → bid ∈ bids → price bid < price ask) →
  scanAsks ts prod asks bids = ([], asks, bids).
Proof.
  induction asks as [|ask rest IH]; intros Hno; simpl; [done|].
  rewrite scanBids_no_cross by (intros b Hb; apply Hno; [left|done]).
  rewrite IH; [done|]. intros a b Ha Hb. apply Hno; [by right|done].
Qed.

(* A crossing first pair with something to trade on both sides trades. *)
Lemma scanAsks_first_pair ask asks bid bids :
  price ask <= price bid → 0 < amount ask → 0 < amount bid →
  (scanAsks ts prod (ask :: asks) (bid :: bids)).1.1 ≠ [].
Proof.
  intros Hp Ha Hb. simpl.
  assert (∃ trade it_ask it_bid br,
            matchPair ts prod ask bid = mkIteration (Some trade) it_ask it_bid br)
    as (trade & a1 & b1 & br & ->).
  { destruct (Qlt_le_dec (amount ask) (amount bid)) as [Hlt|Hle].
    - rewrite matchPair_bid_greater by done. by eexists _, _, _, _.
    - destruct (Qeq_dec (amount bid) (amount ask)) as [Heq|Hne].
      + rewrite matchPair_equal by done. by eexists _, _, _, _.
      + rewrite matchPair_bid_smaller by (try done; lra). by eexists _, _, _, _. }
  simpl. destruct br.
  - destruct (scanAsks ts prod asks _) as [[??]?]. done.
  - destruct (scanBids ts prod a1 bids) as [[??]?].
    destruct (scanAsks ts prod asks _) as [[??]?]. done.
Qed.

Lemma same_order_refl l : Forall2 same_order l l.
Proof. induction l; constructor; [by repeat split|done]. Qed.

Lemma matchPair_same_order ask bid :
  same_order ask (ask_after (matchPair ts prod ask bid)) ∧
  same_order bid (bid_after (matchPair ts prod ask bid)).
Proof.
  unfold matchPair, same_order.
  repeat (match goal with |- context [if ?b then _ else _] => destruct b end);
    done.
Qed.

Lemma new_sale_labelled ask bid a :
  labelled ts prod ask bid (set_amount (new_sale ask bid ts prod) a).
Proof.
  unfold labelled, new_sale, simuser.
  destruct (String.eqb_spec (username ask) "simuser") as [Ha|Ha];
    destruct (String.eqb_spec (username bid) "simuser") as [Hb|Hb];
    repeat case_decide; done.
Qed.

Lemma matchPair_labelled ask bid sale :
  pushed (matchPair ts prod ask bid) = Some sale →
  labelled ts prod ask bid sale ∧ price ask <= price bid.
Proof.
  unfold matchPair. destruct (Qgeb (price bid) (price ask)) eqn:Hp; [|done].
  qbool. intros Hs. split; [|done]. revert Hs.
  repeat (match goal with |- context [if ?b then _ else _] => destruct b end);
    simpl; intros [= <-] || done; apply new_sale_labelled.
Qed.

Lemma labelled_same_order ask ask' bid bid' sale :
  same_order ask ask' → same_order bid bid' →
  labelled ts prod ask' bid' sale → labelled ts prod ask bid sale.
Proof.
  unfold same_order, labelled.
  intros (-> & _ & _ & _ & ->) (_ & _ & _ & _ & ->). done.
Qed.

Lemma same_order_trans l1 l2 l3 :
  Forall2 same_order l1 l2 → Forall2 same_order l2 l3 → Forall2 same_order l1 l3.
Proof.
  apply Forall2_trans. unfold same_order.
  intros x y z (-> & -> & -> & -> & ->) (-> & -> & -> & -> & ->). done.
Qed.

Lemma scanBids_labelled bids : ∀ ask sales ask' bids',
  scanBids ts prod ask bids = (sales, ask', bids') →
  same_order ask ask' ∧ Forall2 same_order bids bids' ∧
  ∀ sale, sale ∈ sales →
    ∃ bid, bid ∈ bids ∧ price ask <= price bid ∧ labelled ts prod ask bid sale.
Proof.
  induction bids as [|bid rest IH]; intros ask sales ask' bids'; simpl.
  { intros [= <- <- <-].
    split; [by repeat split|split; [constructor|by intros ? ?%elem_of_nil]]. }
  pose proof (matchPair_same_order ask bid) as [Hsa Hsb].
  pose proof (matchPair_labelled ask bid) as Hpush.
  destruct (matchPair ts prod ask bid) as [p a1 b1 br]; simpl in *.
  assert (∀ sale, sale ∈ option_list p →
    ∃ bid0, bid0 ∈ bid :: rest ∧ price ask <= price bid0 ∧
            labelled ts prod ask bid0 sale) as Hhere.
  { intros sale Hin. destruct p as [s|]; simpl in Hin; [|by apply elem_of_nil in Hin].
    apply list_elem_of_singleton in Hin as ->.
    destruct (Hpush s eq_refl) as [? ?]. exists bid. split; [left|done]. }
  destruct br.
  - intros [= <- <- <-]. split; [done|split; [|done]].
    constructor; [done|apply same_order_refl].
  - destruct (scanBids ts prod a1 rest) as [[s2 a2] r2] eqn:Hrec.
    intros [= <- <- <-].
    destruct (IH _ _ _ _ Hrec) as (Hsa2 & Hf2 & Hs2).
    split.
    { destruct Hsa as (? & ? & ? & ? & ?), Hsa2 as (? & ? & ? & ? & ?).
      repeat split; congruence. }
    split; [by constructor|].
    intros sale [Hin|Hin]%elem_of_app; [by apply Hhere|].
    destruct (Hs2 sale Hin) as (bid0 & Hb0 & Hle & Hlab).
    exists bid0. split; [by right|].
    destruct Hsa as (Hpa & Hrest). rewrite Hpa in Hle. split; [done|].
    apply (labelled_same_order ask a1 bid0 bid0); [by split| by repeat split|done].
Qed.

Lemma scanAsks_labelled asks : ∀ bids sales asks' bids',
  scanAsks ts prod asks bids = (sales, asks', bids') →
  Forall2 same_order bids bids' ∧
  ∀ sale, sale ∈ sales →
    ∃ ask bid, ask ∈ asks ∧ bid ∈ bids ∧
      price ask <= price bid ∧ labelled ts prod ask bid sale.
Proof.
  induction asks as [|ask rest IH]; intros bids sales asks' bids'; simpl.
  { intros [= <- <- <-]. split; [|by intros ? ?%elem_of_nil].
    apply same_order_refl. }
  destruct (scanBids ts prod ask bids) as [[s1 a1] b1] eqn:Hin1.
  destruct (scanAsks ts prod rest b1) as [[s2 r2] b2] eqn:Hin2.
  intros [= <- <- <-].
  destruct (scanBids_labelled _ _ _ _ _ Hin1) as (_ & Hf1 & Hs1).
  destruct (IH _ _ _ _ Hin2) as (Hf2 & Hs2).
  split; [by eapply same_order_trans|].
  intros sale [Hin|Hin]%elem_of_app.
  - destruct (Hs1 sale Hin) as (bid & Hb & Hle & Hlab).
    exists ask, bid. split; [left|done].
  - destruct (Hs2 sale Hin) as (ask0 & bid1 & Ha0 & Hb1 & Hle & Hlab).
    destruct (proj1 (list_elem_of_lookup _ _) Hb1) as [i Hi].
    destruct (Forall2_lookup_r _ _ _ _ _ Hf1 Hi) as (bid0 & Hi0 & Hsame).
    exists ask0, bid0. split; [by right|].
    split; [by eapply list_elem_of_lookup_2|].
    destruct Hsame as (Hp & Hrest). rewrite <- Hp. split; [done|].
    apply (labelled_same_order ask0 ask0 bid0 bid1);
      [by repeat split|by split|done].
Qed.
End trades.

Section match_call_trades.
Import OrderBook.
Context `{StdSort}.

Lemma sorted_asks_head a1 rest a :
  is_sorted compareByPriceAsc (a1 :: rest) → a ∈ a1 :: rest → price a1 <= price a.
Proof.
  intros [_ Hhd]%StronglySorted_inv [->|Hin]%elem_of_cons; [lra|].
  rewrite Forall_forall in Hhd. specialize (Hhd a Hin).
  unfold not_after, compareByPriceAsc in Hhd. by qbool.
Qed.

Lemma sorted_bids_head b1 rest b :
  is_sorted compareByPriceDesc (b1 :: rest) → b ∈ b1 :: rest → price b <= price b1.
Proof.
  intros [_ Hhd]%StronglySorted_inv [->|Hin]%elem_of_cons; [lra|].
  rewrite Forall_forall in Hhd. specialize (Hhd b Hin).
  unfold not_after, compareByPriceDesc in Hhd. by qbool.
Qed.

(** X13.  A call of matchAsksToBids makes no trade when no bid of the call
    reaches the price of any ask of the call (in particular when there is
    no ask or no bid); and when every ask and bid of the call has a
    positive amount, it makes no trade only then. *)
Theorem trades_need_crossing_prices (orders : list OrderBookEntry)
    (prod ts : string) :
  let asks := getOrders OrderBookType.ask prod ts orders in
  let bids := getOrders OrderBookType.bid prod ts orders in
  ((∀ ask bid, ask ∈ asks → bid ∈ bids → price bid < price ask) →
     matchAsksToBids orders prod ts = []) ∧
  ((∀ e, e ∈ asks ∨ e ∈ bids → 0 < amount e) →
     matchAsksToBids orders prod ts = [] →
     ∀ ask bid, ask ∈ asks → bid ∈ bids → price bid < price ask).
Proof.
  intros asks bids. unfold matchAsksToBids. fold asks. fold bids. split.
  - intros Hno. rewrite scanAsks_no_cross; [done|].
    intros ask bid Ha Hb.
    apply elem_of_std_sort in Ha; [|apply compareByPriceAsc_swo].
    apply elem_of_std_sort in Hb; [|apply compareByPriceDesc_swo].
    by apply Hno.
  - intros Hpos Hnone ask bid Ha Hb.
    destruct (Qlt_le_dec (price bid) (price ask)) as [?|Hcross]; [done|].
    exfalso.
    pose proof (std_sort_sorted compareByPriceAsc asks compareByPriceAsc_swo) as Hsa.
    pose proof (std_sort_sorted compareByPriceDesc bids compareByPriceDesc_swo) as Hsb.
    apply (elem_of_std_sort compareByPriceAsc asks ask compareByPriceAsc_swo) in Ha.
    apply (elem_of_std_sort compareByPriceDesc bids bid compareByPriceDesc_swo) in Hb.
    assert (∀ e, e ∈ std_sort compareByPriceAsc asks → 0 < amount e) as Hpa.
    { intros e He. apply Hpos. left.
      by apply (elem_of_std_sort compareByPriceAsc asks e compareByPriceAsc_swo). }
    assert (∀ e, e ∈ std_sort compareByPriceDesc bids → 0 < amount e) as Hpb.
    { intros e He. apply Hpos. right.
      by apply (elem_of_std_sort compareByPriceDesc bids e compareByPriceDesc_swo). }
    destruct (std_sort compareByPriceAsc asks) as [|a1 arest];
      [by apply elem_of_nil in Ha|].
    destruct (std_sort compareByPriceDesc bids) as [|b1 brest];
      [by apply elem_of_nil in Hb|].
    pose proof (sorted_asks_head a1 arest ask Hsa Ha).
    pose proof (sorted_bids_head b1 brest bid Hsb Hb).
    apply (scanAsks_first_pair ts prod a1 arest b1 brest); [lra| | |done].
    + apply Hpa. left.
    + apply Hpb. left.
Qed.

(** X14.  Every trade returned by matchAsksToBids carries the timestamp and
    the product of the call and the price of an ask of the call that a bid
    of the call reaches, and is labelled from the owners of the two: an
    asksale of the simulated user when the ask is the user's (also when the
    bid is the user's too), else a bidsale of the simulated user when the
    bid is the user's, else an asksale of the data set. *)
Theorem trades_are_labelled (orders : list OrderBookEntry) (prod ts : string)
    (sale : OrderBookEntry) :
  sale ∈ matchAsksToBids orders prod ts →
  ∃ ask bid,
    ask ∈ getOrders OrderBookType.ask prod ts orders ∧
    bid ∈ getOrders OrderBookType.bid prod ts orders ∧
    price ask <= price bid ∧ labelled ts prod ask bid sale.
Proof.
  intros Hin. unfold matchAsksToBids in Hin.
  destruct (scanAsks ts prod _ _) as [[sales asks'] bids'] eqn:Hscan in Hin.
  simpl in Hin.
  destruct (scanAsks_labelled _ _ _ _ _ _ _ Hscan) as [_ Hsales].
  destruct (Hsales sale Hin) as (ask & bid & Ha & Hb & Hle & Hlab).
  apply elem_of_std_sort in Ha; [|apply compareByPriceAsc_swo].
  apply elem_of_std_sort in Hb; [|apply compareByPriceDesc_swo].
  by exists ask, bid.
Qed.
End match_call_trades.

Lemma trades_need_crossing_prices_witness :
  OrderBook.matchAsksToBids (H := merge_std_sort) OrderBook.OrderBook
    "BTC/USDT" "2020/03/17 17:01:24" = [].
Proof.
  apply (trades_need_crossing_prices (H := merge_std_sort)).
  intros ask bid Ha Hb. vm_compute in Ha, Hb.
  apply list_elem_of_singleton in Ha as ->.
  apply elem_of_cons in Hb as [->|Hb];
    [|apply list_elem_of_singleton in Hb as ->]; by vm_compute.
Defined.

Lemma trades_are_labelled_witness :
  let orders := OrderBook.insertOrder (H := merge_std_sort) OrderBook.OrderBook user_bid in
  let sale := mkOrderBookEntry 200 10 "2020/03/17 17:01:30" "ETH/USDT"
                OrderBookType.bidsale simuser in
  ∃ ask bid,
    ask ∈ OrderBook.getOrders OrderBookType.ask "ETH/USDT" "2020/03/17 17:01:30" orders ∧
    bid ∈ OrderBook.getOrders OrderBookType.bid "ETH/USDT" "2020/03/17 17:01:30" orders ∧
    price ask <= price bid ∧
    labelled "2020/03/17 17:01:30" "ETH/USDT" ask bid sale.
Proof.
  intros orders sale.
  apply (trades_are_labelled (H := merge_std_sort)).
  assert (OrderBook.matchAsksToBids (H := merge_std_sort) orders "ETH/USDT"
            "2020/03/17 17:01:30" = [sale]) as -> by (by vm_compute).
  left.
Defined.

(** ** Highest and lowest price: the order of the entries *)

Section price_range.
Import OrderBook.



End price_range.


(** ** The application: entering an order *)

Section enter.
Import Wallet ExtendedWallet MerkelMain.
Context `{StdSort} (stod : string → option Q).

(* The cases of enterOrder that return. *)
Lemma enterOrder_returns type app input app' msg :
  enterOrder stod type app input = Returns (app', msg) →
  (app' = app ∧ (msg = bad_input ∨ msg = insufficient_funds)) ∨
  (msg = wallet_looks_good ∧
   ∃ t0 t1 t2 p a,
     CSVReader.tokenise input comma = [t0; t1; t2] ∧
     stod t1 = Some p ∧ stod t2 = Some a ∧
     canFulfillOrder (wallet app)
       (mkOrderBookEntry p a (currentTime app) t0 type simuser) = Returns true ∧
     app' = mk (OrderBook.insertOrder (orderBook app)
                  (mkOrderBookEntry p a (currentTime app) t0 type simuser))
               (wallet app) (currentTime app)).
Proof.
  unfold enterOrder. case_decide as Hlen.
  { intros [= <- <-]. left. split; [done|by left]. }
  destruct (CSVReader.tokenise input comma) as [|t0 [|t1 [|t2 [|]]]] eqn:Ht;
    simpl in Hlen; try lia. simpl.
  destruct (stod t1) as [p|] eqn:Hp;
    [|intros [= <- <-]; left; split; [done|by left]].
  destruct (stod t2) as [a|] eqn:Ha;
    [|intros [= <- <-]; left; split; [done|by left]].
  destruct (canFulfillOrder _ _) as [[|]| |] eqn:Hcan; simpl; try done.
  - intros [= <- <-]. right. split; [done|]. by exists t0, t1, t2, p, a.
  - intros [= <- <-]. left. split; [done|by right].
Qed.

(** X16.  enterAsk and enterBid never touch the wallet nor the current
    time, and they change the book only by inserting one order that the
    wallet covers: when they return, either the state is unchanged (bad
    input or insufficient funds), or the verdict is "Wallet looks good." and
    the book has received one order of the simulated user at the current
    time: an ask whose amount is at most the balance held in the first
    currency of its product, or a bid whose amount * price is at most the
    balance held in the second. *)
Theorem entered_order_is_covered (app app' : MerkelMain.t) (input msg : string) :
  (enterAsk stod app input = Returns (app', msg) →
     wallet app' = wallet app ∧ currentTime app' = currentTime app ∧
     ((app' = app ∧ (msg = bad_input ∨ msg = insufficient_funds)) ∨
      (msg = wallet_looks_good ∧
       ∃ obe base b,
         places OrderBookType.ask app app' obe ∧
         CSVReader.tokenise (product obe) slash !! 0%nat = Some base ∧
         wallet app !! base = Some b ∧ amount obe <= b))) ∧
  (enterBid stod app input = Returns (app', msg) →
     wallet app' = wallet app ∧ currentTime app' = currentTime app ∧
     ((app' = app ∧ (msg = bad_input ∨ msg = insufficient_funds)) ∨
      (msg = wallet_looks_good ∧
       ∃ obe quote b,
         places OrderBookType.bid app app' obe ∧
         CSVReader.tokenise (product obe) slash !! 1%nat = Some quote ∧
         wallet app !! quote = Some b ∧ amount obe * price obe <= b))).
Proof.
  split; intros Hret; apply enterOrder_returns in Hret
    as [[-> Hmsg]|(-> & t0 & t1 & t2 & p & a & Ht & Hp & Ha & Hcan & ->)];
    try (split; [done|split; [done|by left]]);
    (split; [done|split; [done|right; split; [done|]]]);
    unfold canFulfillOrder, index in Hcan; simpl in Hcan.
  - destruct (CSVReader.tokenise t0 slash !! 0%nat) as [base|] eqn:Hb; [|done].
    simpl in Hcan. injection Hcan as Hcan. unfold containsCurrency in Hcan.
    destruct (wallet app !! base) as [b|] eqn:Hw; [|done]. qbool.
    eexists _, base, b. by repeat split.
  - destruct (CSVReader.tokenise t0 slash !! 1%nat) as [quote|] eqn:Hb; [|done].
    simpl in Hcan. injection Hcan as Hcan. unfold containsCurrency in Hcan.
    destruct (wallet app !! quote) as [b|] eqn:Hw; [|done]. qbool.
    eexists _, quote, b. by repeat split.
Qed.

Lemma canFulfillOrder_no_throw w o : canFulfillOrder w o ≠ Throws.
Proof.
  unfold canFulfillOrder, index.
  repeat case_decide; try done;
    by destruct (CSVReader.tokenise (product o) slash) as [|? [|? ?]].
Qed.

Lemma enterOrder_undefined type app input :
  enterOrder stod type app input ≠ Throws ∧
  (enterOrder stod type app input = Undefined ↔
     ∃ t0 t1 t2 p a, CSVReader.tokenise input comma = [t0; t1; t2] ∧
       stod t1 = Some p ∧ stod t2 = Some a ∧
       canFulfillOrder (wallet app)
         (mkOrderBookEntry p a (currentTime app) t0 type simuser) = Undefined).
Proof.
  unfold enterOrder. case_decide as Hlen.
  { split; [done|]. split; [done|].
    intros (t0 & t1 & t2 & p & a & Ht & _). by rewrite Ht in Hlen. }
  destruct (CSVReader.tokenise input comma) as [|t0 [|t1 [|t2 [|]]]] eqn:Ht;
    simpl in Hlen; try lia. simpl.
  destruct (stod t1) as [p|] eqn:Hp.
  2:{ split; [done|]. split; [done|].
      intros (? & ? & ? & ? & ? & [= <- <- <-] & ? & _). congruence. }
  destruct (stod t2) as [a|] eqn:Ha.
  2:{ split; [done|]. split; [done|].
      intros (? & ? & ? & ? & ? & [= <- <- <-] & _ & ? & _). congruence. }
  pose proof (canFulfillOrder_no_throw (wallet app)
    (mkOrderBookEntry p a (currentTime app) t0 type simuser)) as Hnt.
  destruct (canFulfillOrder (wallet app)
    (mkOrderBookEntry p a (currentTime app) t0 type simuser))
    as [[|]| |] eqn:Hcan; simpl; try done.
  - split; [done|]. split; [done|].
    intros (? & ? & ? & ? & ? & [= <- <- <-] & Hp' & Ha' & Hu).
    rewrite Hp in Hp'. rewrite Ha in Ha'. injection Hp' as <-.
    injection Ha' as <-. congruence.
  - split; [done|]. split; [done|].
    intros (? & ? & ? & ? & ? & [= <- <- <-] & Hp' & Ha' & Hu).
    rewrite Hp in Hp'. rewrite Ha in Ha'. injection Hp' as <-.
    injection Ha' as <-. congruence.
  - split; [done|]. split; [|done]. intros _. by exists t0, t1, t2, p, a.
Qed.

(** X17.  enterAsk and enterBid never let an exception out, and they have
    no defined behaviour exactly on a line of three fields whose second and
    third are numbers and whose first, the product, does not split as the
    check of the wallet reads it: for enterBid a product that gives fewer
    than two currencies (such as "BTC"), for enterAsk a product that gives
    none. *)
Theorem enter_undefined (app : MerkelMain.t) (input : string) :
  enterAsk stod app input ≠ Throws ∧ enterBid stod app input ≠ Throws ∧
  (enterAsk stod app input = Undefined ↔
     ∃ t0 t1 t2, CSVReader.tokenise input comma = [t0; t1; t2] ∧
       is_Some (stod t1) ∧ is_Some (stod t2) ∧
       CSVReader.tokenise t0 slash = []) ∧
  (enterBid stod app input = Undefined ↔
     ∃ t0 t1 t2, CSVReader.tokenise input comma = [t0; t1; t2] ∧
       is_Some (stod t1) ∧ is_Some (stod t2) ∧
       (length (CSVReader.tokenise t0 slash) < 2)%nat).
Proof.
  unfold enterAsk, enterBid.
  destruct (enterOrder_undefined OrderBookType.ask app input) as [Hta Hua].
  destruct (enterOrder_undefined OrderBookType.bid app input) as [Htb Hub].
  split; [done|]. split; [done|]. rewrite Hua, Hub. split; split.
  - intros (t0 & t1 & t2 & p & a & Ht & Hp & Ha & Hu).
    exists t0, t1, t2. split; [done|]. split; [by exists p|]. split; [by exists a|].
    apply canFulfillOrder_undefined in Hu as [[_ ?]|[? _]]; done.
  - intros (t0 & t1 & t2 & Ht & [p Hp] & [a Ha] & Hnil).
    exists t0, t1, t2, p, a. repeat (split; [done|]).
    apply canFulfillOrder_undefined. by left.
  - intros (t0 & t1 & t2 & p & a & Ht & Hp & Ha & Hu).
    exists t0, t1, t2. split; [done|]. split; [by exists p|]. split; [by exists a|].
    apply canFulfillOrder_undefined in Hu as [[? _]|[_ ?]]; done.
  - intros (t0 & t1 & t2 & Ht & [p Hp] & [a Ha] & Hshort).
    exists t0, t1, t2, p, a. repeat (split; [done|]).
    apply canFulfillOrder_undefined. by right.
Qed.
End enter.

(** ** The application: the states it reaches, and the time step *)

Section app.
Import Wallet ExtendedWallet MerkelMain.
Context `{StdSort} (stod : string → option Q).

Lemma init_returns :
  init = Returns (mk OrderBook.OrderBook init_wallet "2020/03/17 17:01:24").
Proof. reflexivity. Qed.

Lemma init_invariant app : init = Returns app → app_invariant app.
Proof.
  rewrite init_returns. intros [= <-]. unfold app_invariant. simpl.
  split; [apply reachable_seed|]. split; [|split].
  - eexists. split; [left|done].
  - intros e He.
    repeat (apply elem_of_cons in He as [->|He]; [(by left) || (by right)|]).
    by apply elem_of_nil in He.
  - intros e He.
    repeat (apply elem_of_cons in He as [->|He];
      [(by intros ?) || (intros _; vm_compute; lia)|]).
    by apply elem_of_nil in He.
Qed.

Lemma enterOrder_invariant type app input app' msg :
  type = OrderBookType.ask ∨ type = OrderBookType.bid →
  app_invariant app →
  enterOrder stod type app input = Returns (app', msg) →
  app_invariant app'.
Proof.
  intros Htype Hinv Hret.
  apply enterOrder_returns in Hret
    as [[-> _]|(-> & t0 & t1 & t2 & p & a & Ht & Hp & Ha & Hcan & ->)];
    [done|].
  destruct Hinv as (Hbook & (e0 & He0 & Ht0) & Htypes & Hbids).
  set (obe := mkOrderBookEntry p a (currentTime app) t0 type simuser) in *.
  pose proof (insertOrder_perm (orderBook app) obe) as Hperm.
  unfold app_invariant. simpl. split; [by apply reachable_insert|].
  split; [|split].
  - exists e0. split; [|done]. rewrite Hperm. apply elem_of_app. by left.
  - intros e. rewrite Hperm. intros [He|He]%elem_of_app; [by apply Htypes|].
    apply list_elem_of_singleton in He as ->. simpl. tauto.
  - intros e. rewrite Hperm. intros [He|He]%elem_of_app; [by apply Hbids|].
    apply list_elem_of_singleton in He as ->. simpl. intros ->.
    destruct (decide (2 ≤ length (CSVReader.tokenise t0 slash))%nat)
      as [?|Hshort]; [done|].
    assert (canFulfillOrder (wallet app) obe = Undefined) as Hu.
    { apply canFulfillOrder_undefined. right. split; [done|]. simpl. lia. }
    congruence.
Qed.

Lemma getNextTime_stored orders ts r :
  OrderBook.getNextTime orders ts = Returns r →
  ∃ e, e ∈ orders ∧ timestamp e = r.
Proof.
  unfold OrderBook.getNextTime.
  destruct (first_after_stored ts orders) as [->|(Hlt & e & Hin & He)].
  - simpl. destruct orders as [|e0 rest]; [done|]. simpl. intros [= <-].
    exists e0. split; [left|done].
  - rewrite (ltb_not_empty _ _ Hlt). intros [= <-]. by exists e.
Qed.

Lemma gotoNextTimeframe_invariant app app' :
  app_invariant app → gotoNextTimeframe app = Returns app' → app_invariant app'.
Proof.
  intros (Hbook & _ & Htypes & Hbids). unfold gotoNextTimeframe.
  destruct (matchProducts _ _ _ _) as [w| |]; simpl; [|done..].
  destruct (OrderBook.getNextTime _ _) as [next| |] eqn:Hnext; simpl; [|done..].
  intros [= <-]. unfold app_invariant. simpl.
  split; [done|]. split; [|done]. by eapply getNextTime_stored.
Qed.

Lemma app_reachable_invariant app : app_reachable stod app → app_invariant app.
Proof.
  induction 1 as [app Hinit|app input app' msg _ IH Hret
                 |app input app' msg _ IH Hret|app app' _ IH Hret].
  - by apply init_invariant.
  - apply (enterOrder_invariant OrderBookType.ask app input app' msg); auto.
  - apply (enterOrder_invariant OrderBookType.bid app input app' msg); auto.
  - by apply (gotoNextTimeframe_invariant app).
Qed.

(** X18.  In every state the application reaches (from init by enterAsk,
    enterBid and gotoNextTimeframe steps that return), the book is the
    seeded book followed by insertions, hence sorted by timestamp; the
    current time is the timestamp of a stored entry; the book holds asks
    and bids only, never a trade; and the product of every bid splits into
    at least two currencies. *)
Theorem reachable_states_are_sound (app : MerkelMain.t) :
  app_reachable stod app →
  app_invariant app ∧ is_sorted compareByTimestamp (orderBook app).
Proof.
  intros Hr. pose proof (app_reachable_invariant app Hr) as Hinv.
  split; [done|]. destruct Hinv as [Hbook _]. by apply reachable_sorted.
Qed.


Lemma settleSales_skips sales : ∀ w,
  (∀ sale, sale ∈ sales → username sale ≠ simuser) →
  settleSales w sales = Returns w.
Proof.
  induction sales as [|sale rest IH]; intros w Hall; simpl; [done|].
  destruct (String.eqb_spec (username sale) simuser) as [Hu|Hu].
  - by destruct (Hall sale ltac:(left)).
  - simpl. apply IH. intros s Hs. apply Hall. by right.
Qed.


Lemma matchProducts_skips orders ts products : ∀ w,
  (∀ p sale, sale ∈ OrderBook.matchAsksToBids orders p ts →
     username sale ≠ simuser) →
  matchProducts orders ts w products = Returns w.
Proof.
  induction products as [|p rest IH]; intros w Hall; simpl; [done|].
  rewrite settleSales_skips by apply Hall. simpl. by apply IH.
Qed.

(* A trade is on the product of a bid of the call. *)
Lemma sale_of_a_bid orders p ts sale :
  sale ∈ OrderBook.matchAsksToBids orders p ts →
  ∃ ask bid, ask ∈ orders ∧ bid ∈ orders ∧
    orderType bid = OrderBookType.bid ∧ product bid = product sale ∧
    timestamp ask = ts ∧ timestamp bid = ts ∧ labelled ts p ask bid sale.
Proof.
  intros Hin. unfold OrderBook.matchAsksToBids in Hin.
  destruct (OrderBook.scanAsks ts p _ _) as [[sales asks'] bids'] eqn:Hscan in Hin.
  simpl in Hin.
  destruct (scanAsks_labelled _ _ _ _ _ _ _ Hscan) as [_ Hsales].
  destruct (Hsales sale Hin) as (ask & bid & Ha & Hb & Hle & Hlab).
  apply elem_of_std_sort in Ha; [|apply compareByPriceAsc_swo].
  apply elem_of_std_sort in Hb; [|apply compareByPriceDesc_swo].
  unfold OrderBook.getOrders in Ha, Hb.
  apply list_elem_of_filter in Ha as [(_ & _ & Hat) Ha].
  apply list_elem_of_filter in Hb as [(Hbt & Hbp & Hbts) Hb].
  exists ask, bid. repeat (split; [done|]).
  split; [|done]. destruct Hlab as (_ & -> & _). done.
Qed.


(** X20.  Trades between other parties never reach the wallet: when no
    entry of the book at the current time belongs to the simulated user,
    gotoNextTimeframe on a book that is not empty returns a state with the
    wallet and the book unchanged. *)
Theorem gotoNextTimeframe_without_user_orders (app : MerkelMain.t) :
  orderBook app ≠ [] →
  (∀ e, e ∈ orderBook app → timestamp e = currentTime app →
        username e ≠ simuser) →
  ∃ app', gotoNextTimeframe app = Returns app' ∧
    wallet app' = wallet app ∧ orderBook app' = orderBook app.
Proof.
  intros Hne Hnone. unfold gotoNextTimeframe.
  rewrite matchProducts_skips.
  - simpl. destruct (orderBook app) as [|e0 rest] eqn:Hob; [done|].
    unfold OrderBook.getNextTime.
    destruct (String.eqb _ ""); simpl; by eexists.
  - intros p sale Hin.
    destruct (sale_of_a_bid _ _ _ _ Hin)
      as (ask & bid & Ha & Hb & _ & _ & Hat & Hbt & Hlab).
    destruct Hlab as (_ & _ & _ & Hlab).
    rewrite decide_False in Hlab by (by apply Hnone).
    rewrite decide_False in Hlab by (by apply Hnone).
    destruct Hlab as [-> _]. done.
Qed.
End app.

Lemma enterAsk_example :
  MerkelMain.enterAsk (H := merge_std_sort) example_stod init_app "BTC/USDT,100,1" =
  Returns (MerkelMain.mk
             (OrderBook.insertOrder (H := merge_std_sort) OrderBook.OrderBook entered_ask)
             init_wallet "2020/03/17 17:01:24",
           MerkelMain.wallet_looks_good).
Proof. by vm_compute. Qed.

Lemma entered_ask_reachable :
  app_reachable (H := merge_std_sort) example_stod
    (MerkelMain.mk
       (OrderBook.insertOrder (H := merge_std_sort) OrderBook.OrderBook entered_ask)
       init_wallet "2020/03/17 17:01:24").
Proof.
  eapply (app_enterAsk (H := merge_std_sort) example_stod init_app);
    [by apply app_init|apply enterAsk_example].
Qed.

Lemma entered_order_is_covered_witness :
  ∃ obe base b,
    places (H := merge_std_sort) OrderBookType.ask init_app
      (MerkelMain.mk
         (OrderBook.insertOrder (H := merge_std_sort) OrderBook.OrderBook entered_ask)
         init_wallet "2020/03/17 17:01:24") obe ∧
    CSVReader.tokenise (product obe) ExtendedWallet.slash !! 0%nat = Some base ∧
    MerkelMain.wallet init_app !! base = Some b ∧ amount obe <= b.
Proof.
  destruct (entered_order_is_covered (H := merge_std_sort) example_stod init_app
              (MerkelMain.mk
                 (OrderBook.insertOrder (H := merge_std_sort) OrderBook.OrderBook
                    entered_ask)
                 init_wallet "2020/03/17 17:01:24")
              "BTC/USDT,100,1" MerkelMain.wallet_looks_good) as [Hask _].
  destruct (Hask enterAsk_example) as (_ & _ & [[_ [Hm|Hm]]|[_ Hplaced]]);
    [discriminate Hm..|exact Hplaced].
Defined.

Lemma reachable_states_are_sound_witness :
  let app := MerkelMain.mk
               (OrderBook.insertOrder (H := merge_std_sort) OrderBook.OrderBook entered_ask)
               init_wallet "2020/03/17 17:01:24" in
  app_invariant (H := merge_std_sort) app ∧
  is_sorted compareByTimestamp (MerkelMain.orderBook app).
Proof.
  apply (reachable_states_are_sound (H := merge_std_sort) example_stod).
  apply entered_ask_reachable.
Defined.


Lemma gotoNextTimeframe_without_user_orders_witness :
  ∃ app', MerkelMain.gotoNextTimeframe (H := merge_std_sort) init_app = Returns app' ∧
    MerkelMain.wallet app' = MerkelMain.wallet init_app ∧
    MerkelMain.orderBook app' = MerkelMain.orderBook init_app.
Proof.
  apply (gotoNextTimeframe_without_user_orders (H := merge_std_sort)); [done|].
  intros e He _. simpl in He.
  repeat (apply elem_of_cons in He as [->|He]; [done|]).
  by apply elem_of_nil in He.
Defined.

(** ** Matching: trades of positive amount *)

Section positive_trades.
Import OrderBook.
Variables ts prod : string.

Lemma matchPair_positive ask bid :
  0 < amount ask → 0 <= amount bid →
  let it := matchPair ts prod ask bid in
  (∀ sale, pushed it = Some sale → 0 < amount sale) ∧
  0 <= amount (bid_after it) ∧
  (breaks it = false → 0 < amount (ask_after it)).
Proof.
  intros Ha Hb. unfold matchPair.
  destruct (Qgeb (price bid) (price ask)); simpl; [|by repeat split].
  destruct (Qeq_bool (amount bid) (amount ask)) eqn:Heq; simpl.
  { repeat split; try done. by intros sale [= <-]. }
  destruct (Qgtb (amount bid) (amount ask)) eqn:Hgt; simpl.
  { qbool. repeat split; try done; [by intros sale [= <-]|simpl; lra]. }
  destruct (Qltb (amount bid) (amount ask)) eqn:Hlt; simpl; [|by repeat split].
  destruct (Qgtb (amount bid) 0) eqn:Hpos; simpl; [|by repeat split].
  qbool. repeat split; try done; [by intros sale [= <-]|simpl; lra].
Qed.

Lemma scanBids_positive bids : ∀ ask sales ask' bids',
  0 < amount ask → nonneg_amounts bids →
  scanBids ts prod ask bids = (sales, ask', bids') →
  (∀ sale, sale ∈ sales → 0 < amount sale) ∧ nonneg_amounts bids'.
Proof.
  induction bids as [|bid rest IH]; intros ask sales ask' bids' Ha Hbids; simpl.
  { intros [= <- <- <-]. split; [by intros ? ?%elem_of_nil|constructor]. }
  inversion Hbids as [|?? Hb Hrest]; subst.
  pose proof (matchPair_positive ask bid Ha Hb) as (Hsale & Hb1 & Ha1).
  destruct (matchPair ts prod ask bid) as [p a1 b1 br]; simpl in *.
  assert (∀ sale, sale ∈ option_list p → 0 < amount sale) as Hhere.
  { intros sale Hin. destruct p as [s|]; simpl in Hin; [|by apply elem_of_nil in Hin].
    apply list_elem_of_singleton in Hin as ->. by apply Hsale. }
  destruct br.
  - intros [= <- <- <-]. split; [done|by constructor].
  - destruct (scanBids ts prod a1 rest) as [[s2 a2] r2] eqn:Hrec.
    intros [= <- <- <-].
    destruct (IH _ _ _ _ (Ha1 eq_refl) Hrest Hrec) as (Hs2 & Hr2).
    split; [|by constructor].
    intros sale [Hin|Hin]%elem_of_app; [by apply Hhere|by apply Hs2].
Qed.

Lemma scanAsks_positive asks : ∀ bids sales asks' bids',
  Forall (λ e, 0 < amount e) asks → nonneg_amounts bids →
  scanAsks ts prod asks bids = (sales, asks', bids') →
  ∀ sale, sale ∈ sales → 0 < amount sale.
Proof.
  induction asks as [|ask rest IH]; intros bids sales asks' bids' Hasks Hbids; simpl.
  { intros [= <- <- <-]. by intros ? ?%elem_of_nil. }
  inversion Hasks as [|?? Ha Hrest]; subst.
  destruct (scanBids ts prod ask bids) as [[s1 a1] b1] eqn:Hin1.
  destruct (scanAsks ts prod rest b1) as [[s2 r2] b2] eqn:Hin2.
  intros [= <- <- <-].
  destruct (scanBids_positive _ _ _ _ _ Ha Hbids Hin1) as (Hs1 & Hb1).
  intros sale [Hin|Hin]%elem_of_app; [by apply Hs1|].
  by apply (IH _ _ _ _ Hrest Hb1 Hin2).
Qed.
End positive_trades.

Section match_call_amounts.
Import OrderBook.
Context `{StdSort}.

(** X21.  Trades of amount 0 come from asks without amount only: when
    every ask of the call has a positive amount and no bid of the call a
    negative one, every trade returned by matchAsksToBids has a positive
    amount. *)
Theorem trades_are_positive (orders : list OrderBookEntry) (prod ts : string)
    (sale : OrderBookEntry) :
  (∀ e, e ∈ getOrders OrderBookType.ask prod ts orders → 0 < amount e) →
  (∀ e, e ∈ getOrders OrderBookType.bid prod ts orders → 0 <= amount e) →
  sale ∈ matchAsksToBids orders prod ts → 0 < amount sale.
Proof.
  intros Hasks Hbids Hin. unfold matchAsksToBids in Hin.
  destruct (scanAsks ts prod _ _) as [[sales asks'] bids'] eqn:Hscan in Hin.
  simpl in Hin. apply (scanAsks_positive _ _ _ _ _ _ _) with (3 := Hscan);
    [| |done].
  - apply Forall_forall. intros e He. apply Hasks.
    by apply (elem_of_std_sort compareByPriceAsc _ e compareByPriceAsc_swo).
  - apply Forall_forall. intros e He. apply Hbids.
    by apply (elem_of_std_sort compareByPriceDesc _ e compareByPriceDesc_swo).
Qed.
End match_call_amounts.

Lemma trades_are_positive_witness :
  let orders := OrderBook.insertOrder (H := merge_std_sort) OrderBook.OrderBook user_bid in
  0 < amount (mkOrderBookEntry 200 10 "2020/03/17 17:01:30" "ETH/USDT"
                OrderBookType.bidsale simuser).
Proof.
  intros orders.
  apply (trades_are_positive (H := merge_std_sort) orders "ETH/USDT"
           "2020/03/17 17:01:30").
  - intros e He. vm_compute in He.
    apply list_elem_of_singleton in He as ->. by vm_compute.
  - intros e He. vm_compute in He.
    apply elem_of_cons in He as [->|He];
      [|apply list_elem_of_singleton in He as ->]; by vm_compute.
  - assert (OrderBook.matchAsksToBids (H := merge_std_sort) orders "ETH/USDT"
              "2020/03/17 17:01:30" =
            [mkOrderBookEntry 200 10 "2020/03/17 17:01:30" "ETH/USDT"
               OrderBookType.bidsale simuser]) as -> by (by vm_compute).
    left.
Defined.

